(** * Parsr: a shallow embedding of the digital-text backend, the link
      detection module, the table of contents and the server manager

    Part I holds the definitions, one module per source file; Part II the
    properties proved about them.

    Conventions of the embedding.
    - A JavaScript string is a [string], read as the bytes of its UTF-8
      encoding; the character classes and the case conversions are the
      ASCII ones.
    - A JavaScript number is a [number]: an exact rational, or [NaN].
      Rounding and the infinities are not modelled.
    - A promise is modelled by its outcome ([Promise]): resolved, rejected,
      or never settled.
    - A thrown exception is modelled by [Throw] in [Completion]. *)

From Stdlib Require Import String Ascii List ZArith QArith Qcanon Qcabs Qround Lia.
From Stdlib Require Import HexadecimalString.
From stdpp Require Import base option list relations strings numbers gmap pretty.

Set Default Proof Using "Type".
Set Warnings "-register-all".

(* ================================================================== *)
(** * Part I. Definitions                                              *)
(* ================================================================== *)

(** ** JavaScript values shared by the modules *)

Module JS.

(** Outcome of a promise. [Pending] is a promise that never settles. *)
Inductive Promise (A : Type) : Type :=
| Resolved (a : A)
| Rejected (reason : string)
| Pending.
Arguments Resolved {A} a.
Arguments Rejected {A} reason.
Arguments Pending {A}.

(** [Promise.all]: resolved when every member is, rejected as soon as one
    member is (the first one in list order is reported here). *)
Fixpoint Promise_all {A} (ps : list (Promise A)) : Promise (list A) :=
  match ps with
  | [] => Resolved []
  | p :: ps' =>
      match p, Promise_all ps' with
      | Resolved a, Resolved l => Resolved (a :: l)
      | Rejected e, _ => Rejected e
      | _, Rejected e => Rejected e
      | _, _ => Pending
      end
  end.

(** Completion of a synchronous computation. *)
Inductive Completion (A : Type) : Type :=
| Normal (a : A)
| Throw (error : string).
Arguments Normal {A} a.
Arguments Throw {A} error.

Definition bind {A B} (c : Completion A) (k : A → Completion B) : Completion B :=
  match c with
  | Normal a => k a
  | Throw e => Throw e
  end.

(** Numbers. *)
Definition number : Type := option Qc.
Definition NaN : number := None.
Definition ofZ (z : Z) : number := Some (Q2Qc (inject_Z z)).
Definition sub (a b : number) : number :=
  match a, b with Some x, Some y => Some (x - y)%Qc | _, _ => NaN end.
Definition mul (a b : number) : number :=
  match a, b with Some x, Some y => Some (x * y)%Qc | _, _ => NaN end.
Definition abs (a : number) : number := Qcabs <$> a.
(** [a > b]; false when either side is [NaN]. *)
Definition gt (a b : number) : bool :=
  match a, b with Some x, Some y => bool_decide (y < x)%Qc | _, _ => false end.
(** [Math.ceil] followed by [toString(16)]. *)
Definition ceilToString16 (a : number) : string :=
  match a with
  | None => "NaN"
  | Some x =>
      let z := Qceiling x in
      let digits := NilZero.string_of_uint (N.to_hex_uint (Z.abs_N z)) in
      if (z <? 0)%Z then "-" +:+ digits else digits
  end.

(** Strings. *)
Definition isUpper (c : ascii) : bool :=
  let n := nat_of_ascii c in (65 <=? n) && (n <=? 90).
Definition isLower (c : ascii) : bool :=
  let n := nat_of_ascii c in (97 <=? n) && (n <=? 122).
Definition isDigit (c : ascii) : bool :=
  let n := nat_of_ascii c in (48 <=? n) && (n <=? 57).
Definition lowerChar (c : ascii) : ascii :=
  if isUpper c then ascii_of_nat (nat_of_ascii c + 32) else c.
Definition upperChar (c : ascii) : ascii :=
  if isLower c then ascii_of_nat (nat_of_ascii c - 32) else c.

Fixpoint toLowerCase (s : string) : string :=
  match s with
  | EmptyString => EmptyString
  | String c s' => String (lowerChar c) (toLowerCase s')
  end.
Fixpoint toUpperCase (s : string) : string :=
  match s with
  | EmptyString => EmptyString
  | String c s' => String (upperChar c) (toUpperCase s')
  end.

(** [s.includes(needle)] on strings. *)
Fixpoint includes (needle s : string) : bool :=
  String.prefix needle s
  || match s with
     | EmptyString => false
     | String _ s' => includes needle s'
     end.

(** [s.split(sep)] for a separator of one character. *)
Fixpoint split (sep : ascii) (s : string) : list string :=
  match s with
  | EmptyString => [EmptyString]
  | String c s' =>
      if bool_decide (c = sep) then EmptyString :: split sep s'
      else match split sep s' with
           | [] => [String c EmptyString]
           | w :: ws => String c w :: ws
           end
  end.

(** [a.join('')]. *)
Definition join (ws : list string) : string := foldr append EmptyString ws.

(** [s.replace(c, '')] for a one-character string pattern: only the first
    occurrence is removed. *)
Fixpoint removeFirst (c : ascii) (s : string) : string :=
  match s with
  | EmptyString => EmptyString
  | String d s' => if bool_decide (d = c) then s' else String d (removeFirst c s')
  end.

(** [a.slice(from, to)] for [0 <= from]. *)
Definition slice {A} (from to : nat) (l : list A) : list A :=
  take (to - from) (drop from l).

(** [a.sort(cmp)]: the sort is stable (ECMAScript 2019); elements that
    compare equal keep their order. *)
Fixpoint insertSorted {A} (cmp : A → A → Z) (x : A) (l : list A) : list A :=
  match l with
  | [] => [x]
  | y :: l' => if (cmp x y <=? 0)%Z then x :: y :: l' else y :: insertSorted cmp x l'
  end.
Definition sort {A} (cmp : A → A → Z) (l : list A) : list A :=
  foldr (insertSorted cmp) [] l.


(** Values of dynamically typed code: what [xml2js] builds (strings, arrays
    and objects), and [undefined] for a property that is absent. *)
Inductive jsval :=
| JUndefined
| JString (s : string)
| JArray (items : list jsval)
| JObject (fields : list (string * jsval)).

Definition truthy (v : jsval) : bool :=
  match v with
  | JUndefined => false
  | JString s => negb (bool_decide (s = EmptyString))
  | _ => true
  end.

(** [a === b]. Two arrays or objects are equal only when they are the same
    object; the comparisons of the sources are between values taken from
    different places of a tree, which never are. *)
Definition strictEq (a b : jsval) : bool :=
  match a, b with
  | JUndefined, JUndefined => true
  | JString s, JString t => bool_decide (s = t)
  | _, _ => false
  end.

Definition getField (fields : list (string * jsval)) (k : string) : jsval :=
  match list_find (λ kv, kv.1 = k) fields with
  | Some (_, (_, v)) => v
  | None => JUndefined
  end.

(** [v.k], for a name [k] that is no built-in property of strings and
    arrays. *)
Definition prop (k : string) (v : jsval) : Completion jsval :=
  match v with
  | JUndefined => Throw "TypeError"
  | JObject fields => Normal (getField fields k)
  | _ => Normal JUndefined
  end.

(** [v[i]] *)
Definition index (i : Z) (v : jsval) : Completion jsval :=
  match v with
  | JUndefined => Throw "TypeError"
  | JArray items =>
      Normal (if (i <? 0)%Z then JUndefined else default JUndefined (items !! Z.to_nat i))
  | JString s =>
      Normal (if (i <? 0)%Z then JUndefined
              else match String.get (Z.to_nat i) s with
                   | Some c => JString (String c EmptyString)
                   | None => JUndefined
                   end)
  | JObject fields => Normal (getField fields (pretty i))
  end.

(** A chain of accesses, [v.a[i].b]: the first access of [undefined]
    throws. *)
Inductive access :=
| P (name : string)
| I (i : Z).
Fixpoint get (path : list access) (v : jsval) : Completion jsval :=
  match path with
  | [] => Normal v
  | P name :: path' => bind (prop name v) (get path')
  | I i :: path' => bind (index i v) (get path')
  end.

(** The receiver of an array method ([map], [filter], [some], [forEach],
    [findIndex]): anything but an array has no such method. *)
Definition asArray (v : jsval) : Completion (list jsval) :=
  match v with
  | JArray items => Normal items
  | _ => Throw "TypeError"
  end.

Definition isString (x : string) (v : jsval) : bool :=
  match v with
  | JString s => bool_decide (s = x)
  | _ => false
  end.

(** Position of the first member that satisfies [p], or -1. *)
Definition findIndex {A} (p : A → bool) (l : list A) : Z :=
  match list_find (λ x, Is_true (p x)) l with
  | Some (i, _) => Z.of_nat i
  | None => (-1)%Z
  end.

(** [v.includes(x)] and [v.indexOf(x)] for a string [x]: arrays and strings
    both have them. *)
Definition jsIncludes (x : string) (v : jsval) : Completion bool :=
  match v with
  | JArray items => Normal (existsb (isString x) items)
  | JString s => Normal (includes x s)
  | _ => Throw "TypeError"
  end.
Definition jsIndexOf (x : string) (v : jsval) : Completion Z :=
  match v with
  | JArray items => Normal (findIndex (isString x) items)
  | JString s =>
      Normal (match String.index 0 x s with Some i => Z.of_nat i | None => (-1)%Z end)
  | _ => Throw "TypeError"
  end.

(** The conversion to a string, as template literals and [concat] do it. *)
Fixpoint toString (v : jsval) : string :=
  match v with
  | JUndefined => "undefined"
  | JString s => s
  | JArray items =>
      (fix commas (l : list jsval) : string :=
         match l with
         | [] => EmptyString
         | [x] => match x with JUndefined => EmptyString | _ => toString x end
         | x :: l' =>
             (match x with JUndefined => EmptyString | _ => toString x end)
               +:+ "," +:+ commas l'
         end) items
  | JObject _ => "[object Object]"
  end.

End JS.
Import JS.

#[global] Instance completion_ret : MRet Completion := @Normal.
#[global] Instance completion_bind : MBind Completion := λ A B k c, JS.bind c k.

(** ** The document representation (types/DocumentRepresentation)

    The classes of the document representation are imported by the source
    files under study; their declarations follow the data model of the
    specification. *)

Module BoundingBox.
Record t := make { left : number; top : number; width : number; height : number }.
End BoundingBox.

Module Font.
Inductive Weight := medium | bold.
Record t := make {
  name : string;
  size : number;
  weight : Weight;
  isItalic : bool;
  isUnderline : bool;
  color : string
}.
#[global] Instance weight_eq_dec : EqDecision Weight.
Proof. solve_decision. Defined.
#[global] Instance eq_dec : EqDecision t.
Proof. solve_decision. Defined.

(** Modelled from the spec: [Font.isEqual] is not part of the sources at
    hand. Structural equality: two fonts are equal iff all fields match
    exactly. *)
Definition isEqual (a b : t) : bool := bool_decide (a = b).
End Font.

Record Character := {
  char_box : BoundingBox.t;
  char_content : string;
  char_font : Font.t
}.

Record Word := {
  word_box : BoundingBox.t;
  word_content : list Character;
  word_font : Font.t;
  properties : gmap string jsval
}.

Record Image := {
  image_box : BoundingBox.t;
  src : string
}.

(** Elements: words, images, and composite elements that own further
    elements (lines, paragraphs, ...). *)
Inductive Element :=
| EWord (w : Word)
| EImage (i : Image)
| EComposite (children : list Element).

Record Page := {
  pageNumber : number;
  elements : list Element;
  page_box : BoundingBox.t
}.

Record Document := {
  pages : list Page;
  inputFile : string
}.

(** Modelled from the spec: [Word.toString] is not part of the sources at
    hand. The plain-text string of a word is the text of its characters,
    in order. *)
Definition wordToString (w : Word) : string :=
  JS.join (char_content <$> word_content w).

(** ** input/pdfminer/pdfminer.ts *)

Module Pdfminer.

(** The parsed XML of pdfminer (types/PdfminerPage, PdfminerTextline,
    PdfminerText, PdfminerFigure). An absent property is [None]. *)
Record TextAttr := {
  attr_font : string;
  attr_bbox : string;
  attr_size : string;
  attr_ncolour : string
}.
(** [charkey] is the property [_] (the text of the element), [text_attr]
    the property [_attr]. *)
Record PdfminerText := {
  charkey : option string;
  text_attr : option TextAttr
}.
Record PdfminerTextline := { text : list PdfminerText }.
Record PdfminerTextbox := { textline : list PdfminerTextline }.
Record PdfminerImage := { image_src : string }.
Record PdfminerFigure := {
  figure_bbox : string;
  image : list PdfminerImage
}.
Record PdfminerPage := {
  page_id : string;
  page_bbox : string;
  textbox : option (list PdfminerTextbox);
  figure : option (list PdfminerFigure)
}.
(** The object [xml2js] hands back: [obj.pages.page]. *)
Record PdfminerPages := { page : option (list PdfminerPage) }.
Record PdfminerOutput := { xml_pages : option PdfminerPages }.

(** [config.extractor.img] *)
Record Config := { extractor_img : string }.

(** What the child process did: its exit code ([None] is [null], the
    process was ended by a signal) and the content of the XML file it
    left. *)
Record ProcessRun := {
  exitCode : option Z;
  xmlOutputFile : string
}.

Definition zeroWidthSpace : string :=
  String (ascii_of_nat 226) (String (ascii_of_nat 128) (String (ascii_of_nat 139) EmptyString)).

Section Externals.

(** Built-ins and collaborators that are not part of the sources at hand. *)
Variable parseFloat : string → number.
(** The coercion of a string to a number, as [x * 255] performs it. *)
Variable toNumber : string → number.
(** [BoundingBox.merge] *)
Variable merge : list BoundingBox.t → BoundingBox.t.
(** [Font.undefinedFont] *)
Variable undefinedFont : Font.t.
(** [path.join] *)
Variable pathJoin : string → string → string.
(** [Document.getAllElements] *)
Variable getAllElements : Document → list Element.
(** [Orchestrator.run] of a pipeline made of the Tesseract extractor, resp.
    the ABBYY extractor, and the empty cleaner. *)
Variable tesseractRun abbyyRun : string → Promise Document.
(** [utils.getCommandLocationOnSystem]: [None] when the command is not on
    the system. *)
Variable getCommandLocationOnSystem : string → option string.
(** [repairPdf], which always resolves, with the path of the file to read. *)
Variable repairPdf : string → string.
(** [utils.getTemporaryDirectory] *)
Variable getTemporaryDirectory : string.
(** The run of pdf2txt at a location on a pdf file. *)
Variable spawn : string → string → ProcessRun.
(** [xml2js.parseString]: an error, or the parsed object. *)
Variable parseString : string → string + PdfminerOutput.

Definition getBoundingBox (bbox : string) (splitter : ascii)
    (pageHeight scalingFactor : number) : BoundingBox.t :=
  let values := (λ v, JS.mul (parseFloat v) scalingFactor) <$> JS.split splitter bbox in
  let value (i : nat) := default NaN (values !! i) in
  let width := JS.abs (JS.sub (value 2) (value 0)) in
  let height := JS.abs (JS.sub (value 1) (value 3)) in
  let left := value 0 in
  let top := JS.sub (JS.abs (JS.sub pageHeight (value 1))) height in
  BoundingBox.make left top width height.

Definition basketMatches (basket : list Font.t) (font : Font.t) : bool :=
  match basket with
  | [] => false
  | first :: _ => Font.isEqual first font
  end.

(** One turn of [fonts.forEach]: the font is pushed to every basket whose
    first member equals it; a new basket is opened when there was none. *)
Definition addToBaskets (baskets : list (list Font.t)) (font : Font.t) : list (list Font.t) :=
  let pushed := (λ basket, if basketMatches basket font then basket ++ [font] else basket) <$> baskets in
  let basketFound := existsb (λ basket, basketMatches basket font) baskets in
  if basketFound then pushed else pushed ++ [[font]].

Definition getMostCommonFont (theFonts : list Font.t) : Font.t :=
  let fonts := theFonts in
  let baskets := foldl addToBaskets [] fonts in
  let sorted := JS.sort (λ a b, Z.of_nat (length b) - Z.of_nat (length a))%Z baskets in
  match sorted with
  | (font :: _) :: _ => font
  | _ => undefinedFont
  end.

Definition getValidCharacter (character : string) : string :=
  if JS.includes "(cid:" character then "?" else character.

Definition interpretImages (fig : PdfminerFigure) (imagsLocation : string)
    (pageHeight scalingFactor : number) : list Image :=
  (λ img, {| image_box := getBoundingBox (figure_bbox fig) "," pageHeight scalingFactor;
             src := pathJoin imagsLocation (image_src img) |}) <$> image fig.

Definition isUndefined {A} (o : option A) : bool :=
  match o with None => true | Some _ => false end.

(** The two kinds of empty slots: [word._ === undefined] with
    [word._attr !== undefined], resp. [word._attr === undefined]. *)
Definition emptyWithAttr (word : PdfminerText) : bool :=
  isUndefined (charkey word) && negb (isUndefined (text_attr word)).
Definition emptyWithNoAttr (word : PdfminerText) : bool :=
  isUndefined (charkey word) && isUndefined (text_attr word).

Definition thereAreFakeSpaces (lines : PdfminerTextline) : bool :=
  let indexed := imap (λ index word, (word, index)) (text lines) in
  let emptyWithAttr := snd <$> List.filter (λ word, emptyWithAttr word.1) indexed in
  let emptyWithNoAttr := snd <$> List.filter (λ word, emptyWithNoAttr word.1) indexed in
  foldl (λ fakeSpaces pos, if bool_decide (pos + 1 ∈ emptyWithAttr) then true else fakeSpaces)
        false emptyWithNoAttr.

Definition isFakeChar (word : PdfminerText) (fakeSpacesInLine : bool) : bool :=
  if fakeSpacesInLine && isUndefined (charkey word) && isUndefined (text_attr word)
  then true else false.

(** The pair of slots that [thereAreFakeSpaces] looks for in a line: an
    empty slot with no attributes, immediately followed by an empty slot
    with attributes. *)
Definition fakeSpacePair (line : PdfminerTextline) : Prop :=
  ∃ pos a b,
    text line !! pos = Some a ∧ text line !! (pos + 1) = Some b
    ∧ emptyWithNoAttr a = true ∧ emptyWithAttr b = true.
Definition notAllowed (word : PdfminerText) : bool :=
  bool_decide (charkey word = Some zeroWidthSpace).

Definition ncolourToHex (color : string) : string :=
  let rgbToHex (r g b : string) :=
    "#" +:+ JS.join ((λ x, let hex := JS.ceilToString16 (JS.mul (toNumber x) (JS.ofZ 255)) in
                           if bool_decide (String.length hex = 1) then "0" +:+ hex else hex)
                     <$> [r; g; b]) in
  let rgbColor := JS.split "," (JS.removeFirst "]" (JS.removeFirst "[" color)) in
  let orFirst (i : nat) :=
    match rgbColor !! i with
    | Some x => if bool_decide (x = EmptyString) then default EmptyString (rgbColor !! 0) else x
    | None => default EmptyString (rgbColor !! 0)
    end in
  rgbToHex (default EmptyString (rgbColor !! 0)) (orFirst 1) (orFirst 2).

Definition newWord (charSelection : list Character) : Word :=
  {| word_box := merge (char_box <$> charSelection);
     word_content := charSelection;
     word_font := getMostCommonFont (char_font <$> charSelection);
     properties := ∅ |}.

Definition isSeparator (wordSeparator : string) (c : option Character) : bool :=
  match c with
  | None => true
  | Some c => bool_decide (char_content c = wordSeparator)
  end.

(** The characters of a line kept by the filter of [breakLineIntoWords]. *)
Definition keptSlots (line : PdfminerTextline) : list PdfminerText :=
  let notAllowedChars := [zeroWidthSpace] in
  let fakeSpaces := thereAreFakeSpaces line in
  List.filter (λ char, negb (bool_decide (charkey char ∈ Some <$> notAllowedChars))
                       && negb (isFakeChar char fakeSpaces))
              (text line).

Definition breakLineIntoWords (line : PdfminerTextline) (wordSeparator : string)
    (pageHeight scalingFactor : number) : Completion (list Word) :=
  chars ← mapM (λ char,
      match charkey char with
      | None => mret None
      | Some c =>
          match text_attr char with
          | None => Throw "TypeError"
          | Some a =>
              let font :=
                Font.make (attr_font a) (parseFloat (attr_size a))
                  (if JS.includes "bold" (JS.toLowerCase (attr_font a)) then Font.bold else Font.medium)
                  (JS.includes "italic" (JS.toLowerCase (attr_font a)))
                  (JS.includes "underline" (JS.toLowerCase (attr_font a)))
                  (ncolourToHex (attr_ncolour a)) in
              let charContent := getValidCharacter c in
              mret (Some {| char_box := getBoundingBox (attr_bbox a) "," pageHeight scalingFactor;
                            char_content := charContent;
                            char_font := font |})
          end
      end) (keptSlots line);
  (* chars.splice(0, 1) *)
  let chars :=
    match chars with
    | c :: rest => if isSeparator wordSeparator c then rest else chars
    | [] => chars
    end in
  (* chars.splice(chars.length - 1, chars.length) *)
  let chars :=
    match last chars with
    | Some c => if isSeparator wordSeparator c then take (length chars - 1) chars else chars
    | None => chars
    end in
  match chars with
  | [] | [None] => mret []
  | _ =>
      let sepLocs :=
        List.filter (λ l, negb (l =? 0) && negb (l =? length chars))
          (omap id (imap (λ i c, if isUndefined c then Some i else None) chars)) in
      let defined (cs : list (option Character)) : list Character := omap id cs in
      match sepLocs with
      | [] => mret [newWord (defined chars)]
      | first :: _ =>
          let charSelection := defined (JS.slice 0 first chars) in
          let words := if bool_decide (0 < length charSelection) then [newWord charSelection] else [] in
          mret (foldl (λ words i,
                  let from := default 0 (sepLocs !! i) + 1 in
                  let to := if bool_decide (i ≠ length sepLocs - 1)
                            then default 0 (sepLocs !! (i + 1)) else length chars in
                  let charSelection := defined (JS.slice from to chars) in
                  if bool_decide (0 < length charSelection)
                  then words ++ [newWord charSelection] else words)
                words (seq 0 (length sepLocs)))
      end
  end.

(** [getPage], first part: the bounding box of the page and the words of
    its text boxes. *)
Definition pageBBox (pageObj : PdfminerPage) : BoundingBox.t :=
  let boxValues := parseFloat <$> JS.split "," (page_bbox pageObj) in
  let boxValue (i : nat) := default NaN (boxValues !! i) in
  BoundingBox.make (boxValue 0) (boxValue 1) (boxValue 2) (boxValue 3).

Definition treatParagraphs (pageObj : PdfminerPage) : Completion (list Element) :=
  match textbox pageObj with
  | Some textboxes =>
      words ← mapM (λ line, breakLineIntoWords line ","
                              (BoundingBox.height (pageBBox pageObj)) (JS.ofZ 1))
                   (textboxes ≫= textline);
      mret (EWord <$> concat words)
  | None => mret []
  end.

(** [getPage]. [Array.prototype.concat] returns a new array and leaves
    [imgOCRPromises] as it was; the source drops the array returned. An
    exception of the synchronous part rejects the promise of the [async]
    function. *)
Definition getPage (pageObj : PdfminerPage) (imagsLocation : string) (config : Config)
    : Promise Page :=
  let pageBBox := pageBBox pageObj in
  match treatParagraphs pageObj with
  | Throw e => Rejected e
  | Normal elements =>
      (* treat figures *)
      let imgOCRPromises : list (Promise Document) := [] in
      let '(elements, imgOCRPromises) :=
        match figure pageObj with
        | Some figures =>
            let run := if bool_decide (extractor_img config = "tesseract")
                       then tesseractRun else abbyyRun in
            foldl (λ '(elements, imgOCRPromises) fig,
                     let newImageElements :=
                       interpretImages fig imagsLocation (BoundingBox.height pageBBox) (JS.ofZ 1) in
                     let elements := elements ++ (EImage <$> newImageElements) in
                     let _dropped :=
                       imgOCRPromises ++ ((λ imgElement, run (src imgElement)) <$> newImageElements) in
                     (elements, imgOCRPromises))
                  (elements, imgOCRPromises) figures
        | None => (elements, imgOCRPromises)
        end in
      (* resolve all the OCR promises *)
      match Promise_all imgOCRPromises with
      | Resolved docs =>
          let newElements := concat (getAllElements <$> docs) in
          Resolved {| pageNumber := parseFloat (page_id pageObj);
                      elements := elements ++ newElements;
                      page_box := pageBBox |}
      | Rejected e => Rejected e
      | Pending => Pending
      end
  end.

(** The image elements of the figures of a page, and the OCR runs that
    [getPage] starts for them. *)
Definition figureImages (pageObj : PdfminerPage) (imagsLocation : string) : list Image :=
  default [] (figure pageObj)
    ≫= λ fig, interpretImages fig imagsLocation (BoundingBox.height (pageBBox pageObj)) (JS.ofZ 1).
Definition ocrRuns (pageObj : PdfminerPage) (imagsLocation : string) (config : Config)
    : list (Promise Document) :=
  let run := if bool_decide (extractor_img config = "tesseract")
             then tesseractRun else abbyyRun in
  (λ imgElement, run (src imgElement)) <$> figureImages pageObj imagsLocation.

Definition parseXmlToObject (xml : string) : Promise PdfminerOutput :=
  match parseString xml with
  | inl error => Rejected error
  | inr dataObject => Resolved dataObject
  end.

(** [!location] is false: the command was found. *)
Definition found (location : option string) : bool :=
  match location with
  | None | Some EmptyString => false
  | Some _ => true
  end.

Definition showCode (code : option Z) : string :=
  match code with
  | Some z => pretty z
  | None => "null"
  end.

(** [execute]. [resolveDocument] and [rejectDocument] settle the promise
    returned; where neither is called the promise stays [Pending]:
    - [spawn] throws when it is given no command (or an empty one), inside
      the callback of [repairPdf(...).then];
    - a rejection of [parseXmlToObject(xml)], and an exception in the
      callback of its [then], reach no handler: the surrounding [try]
      covers only the synchronous call. *)
Definition pdf2txtLocation : option string :=
  if found (getCommandLocationOnSystem "pdf2txt.py")
  then getCommandLocationOnSystem "pdf2txt.py"
  else getCommandLocationOnSystem "pdf2txt".

Definition execute (pdfInputFile : string) (config : Config) : Promise Document :=
  let repairedPdf := repairPdf pdfInputFile in
  let imgsLocation := getTemporaryDirectory in
  match pdf2txtLocation with
  | None | Some EmptyString => Pending
  | Some location =>
      let pdfminer := spawn location repairedPdf in
      let code := exitCode pdfminer in
      if bool_decide (code = Some 0%Z) then
        let xml := xmlOutputFile pdfminer in
        match parseXmlToObject xml with
        | Resolved obj =>
            match xml_pages obj ≫= page with
            | Some pageObjs =>
                let pagePromises := (λ pageObj, getPage pageObj imgsLocation config) <$> pageObjs in
                match Promise_all pagePromises with
                | Resolved pages => Resolved {| pages := pages; inputFile := pdfInputFile |}
                | _ => Pending
                end
            | None => Pending
            end
        | _ => Pending
        end
      else Rejected ("pdfminer return code is " +:+ showCode code)
  end.

End Externals.

(** How often a font occurs in a sequence, and the fonts of a sequence in
    the order of their first occurrences. *)
Definition occurrences (f : Font.t) (fonts : list Font.t) : nat :=
  length (filter (λ g, g = f) fonts).
Fixpoint firsts (fonts : list Font.t) : list Font.t :=
  match fonts with
  | [] => []
  | f :: fonts' => f :: filter (λ g, g ≠ f) (firsts fonts')
  end.

End Pdfminer.

(** ** Regular expressions

    The two patterns of [matchTextualLinks] use no back-reference and no
    look-around, and only the existence of a match is observed
    ([String.prototype.match] is compared with [null]); a match exists iff
    the pattern, read as a regular language with the three assertions
    below, matches at some position. *)

Module RegExp.

Inductive regex :=
| Empty
| Class (p : ascii → bool)
| Seq (r1 r2 : regex)
| Or (r1 r2 : regex)
| Star (r : regex)
| Start          (* ^ without the m flag *)
| End_           (* $ without the m flag *)
| WordBoundary.  (* \b *)

Definition code (c : ascii) : nat := nat_of_ascii c.
Definition inRange (lo hi : nat) (c : ascii) : bool := (lo <=? code c) && (code c <=? hi).
Definition isCode (n : nat) (c : ascii) : bool := code c =? n.
(** [\w], [\d] and [\s] *)
Definition isWordChar (c : ascii) : bool :=
  inRange 65 90 c || inRange 97 122 c || inRange 48 57 c || isCode 95 c.
Definition isDigitChar (c : ascii) : bool := inRange 48 57 c.
Definition isSpaceChar (c : ascii) : bool := inRange 9 13 c || isCode 32 c.

Fixpoint lit (s : string) : regex :=
  match s with
  | EmptyString => Empty
  | String c s' => Seq (Class (λ d, bool_decide (d = c))) (lit s')
  end.
Definition plus (r : regex) : regex := Seq r (Star r).
Definition opt (r : regex) : regex := Or r Empty.
Fixpoint rep (n : nat) (r : regex) : regex :=
  match n with
  | 0 => Empty
  | S n' => Seq r (rep n' r)
  end.
Fixpoint upTo (n : nat) (r : regex) : regex :=
  match n with
  | 0 => Empty
  | S n' => opt (Seq r (upTo n' r))
  end.
(** [r{m,n}] *)
Definition repRange (m n : nat) (r : regex) : regex := Seq (rep m r) (upTo (n - m) r).

Definition atWordChar (c : option ascii) : bool :=
  match c with
  | Some c => isWordChar c
  | None => false
  end.
Definition next (s : string) : option ascii :=
  match s with
  | EmptyString => None
  | String c _ => Some c
  end.

Definition isUndefinedChar (c : option ascii) : bool :=
  match c with
  | None => true
  | Some _ => false
  end.

(** [matchFrom r prev s k]: some match of [r] at the start of [s], the
    character before which is [prev], leaves a rest that [k] accepts. An
    iteration of a star that consumes nothing is not taken: it adds no
    match. *)
Fixpoint matchFrom (r : regex) (prev : option ascii) (s : string)
    (k : option ascii → string → bool) {struct r} : bool :=
  match r with
  | Empty => k prev s
  | Class p =>
      match s with
      | String c s' => p c && k (Some c) s'
      | EmptyString => false
      end
  | Seq r1 r2 => matchFrom r1 prev s (λ prev' s', matchFrom r2 prev' s' k)
  | Or r1 r2 => matchFrom r1 prev s k || matchFrom r2 prev s k
  | Star r' =>
      (fix iter (fuel : nat) (prev : option ascii) (s : string) {struct fuel} : bool :=
         k prev s
         || match fuel with
            | 0 => false
            | S fuel' =>
                matchFrom r' prev s
                  (λ prev' s', (String.length s' <? String.length s) && iter fuel' prev' s')
            end) (String.length s) prev s
  | Start => isUndefinedChar prev && k prev s
  | End_ => isUndefinedChar (next s) && k prev s
  | WordBoundary => xorb (atWordChar prev) (atWordChar (next s)) && k prev s
  end.

(** A match of [r] somewhere in [s]. *)
Fixpoint searchFrom (r : regex) (prev : option ascii) (s : string) : bool :=
  matchFrom r prev s (λ _ _, true)
  || match s with
     | EmptyString => false
     | String c s' => searchFrom r (Some c) s'
     end.
(** [s.match(r)] is not [null]. *)
Definition matches (r : regex) (s : string) : bool := searchFrom r None s.

End RegExp.

(** ** processing/LinkDetectionModule/LinkDetectionModule.ts *)

Module LinkDetection.
Import RegExp.

(** Array methods whose callback may throw. *)
Fixpoint foldlM {A B} (f : A → B → Completion A) (a : A) (l : list B) : Completion A :=
  match l with
  | [] => mret a
  | x :: l' => a' ← f a x; foldlM f a' l'
  end.
Fixpoint filterM {A} (p : A → Completion bool) (l : list A) : Completion (list A) :=
  match l with
  | [] => mret []
  | x :: l' => keep ← p x; rest ← filterM p l'; mret (if keep : bool then x :: rest else rest)
  end.
(** [some] stops at the first member that satisfies [p]. *)
Fixpoint someM {A} (p : A → Completion bool) (l : list A) : Completion bool :=
  match l with
  | [] => mret false
  | x :: l' => b ← p x; if b : bool then mret true else someM p l'
  end.

Definition doubleQuote : ascii := ascii_of_nat 34.
Definition oneOf (s : string) (c : ascii) : bool := bool_decide (c ∈ list_ascii_of_string s).

(** The pattern of [linkRegexp]: a word boundary, http or https, a colon,
    one or two slashes, one or more characters that are neither white
    space, parentheses nor angle brackets, and a tail. The tail is a
    parenthesised run of word characters, or a class followed by a white
    space and a closing bracket, or an optional slash. The class of the
    tail is written with the POSIX name punct between brackets in the
    source; JavaScript reads it as: any character but an opening bracket, a
    colon and the letters p, u, n, c, t. *)
Definition linkRegexp : regex :=
  Seq WordBoundary
 (Seq (Seq (Or (lit "http") (lit "https")) (Seq (lit ":") (Seq (lit "/") (opt (lit "/")))))
 (Seq (plus (Class (λ c, negb (isSpaceChar c || oneOf "()<>" c))))
      (Or (Seq (lit "(") (Seq (plus (Class (λ c, isWordChar c || isDigitChar c))) (lit ")")))
          (Or (Seq (Class (λ c, negb (oneOf "[:punct" c))) (Seq (Class isSpaceChar) (lit "]")))
              (opt (lit "/")))))).

(** The classes of word characters with a dash, with and without white
    space: next to a class escape the dash stands for itself. *)
Definition wordDashSpace (c : ascii) : bool := isWordChar c || isCode 45 c || isSpaceChar c.
Definition wordDash (c : ascii) : bool := isWordChar c || isCode 45 c.

Definition mailQuoted : regex :=
  Seq (Class (isCode 34)) (Seq (plus (Class wordDashSpace)) (Class (isCode 34))).
Definition mailDotted : regex :=
  Seq (plus (Class wordDash)) (Star (Seq (lit ".") (plus (Class wordDash)))).
Definition mailDomain : regex :=
  Seq (lit "@")
 (Seq (Seq (Star (Seq (plus (Class wordDash)) (lit ".")))
      (Seq (Class isWordChar) (repRange 0 66 (Class wordDash))))
 (Seq (lit ".")
 (Seq (Seq (repRange 2 6 (Class (inRange 97 122)))
           (opt (Seq (lit ".") (rep 2 (Class (inRange 97 122))))))
      End_))).
Definition digit : regex := Class (inRange 48 57).
Definition mailOctet (suffix : regex) : regex :=
  Or (Seq (lit "25") (Seq (Class (inRange 48 53)) suffix))
 (Or (Seq (lit "2") (Seq (Class (inRange 48 52)) (Seq digit suffix)))
 (Or (Seq (lit "1") (Seq (rep 2 digit) suffix))
     (Seq (repRange 1 2 digit) suffix))).
Definition mailAddressLiteral : regex :=
  Seq (lit "@")
 (Seq (opt (lit "["))
 (Seq (mailOctet (lit "."))
 (Seq (rep 2 (Seq (mailOctet Empty) (lit ".")))
 (Seq (mailOctet Empty)
 (Seq (opt (lit "]")) End_))))).
(** The pattern of [mailRegexp] is an alternation of two branches. The
    first is anchored at the start: a local part (a quoted run, a dotted
    run, or a quoted run followed by a dotted run), then the at-sign, a
    domain, a dot and a top-level name of 2 to 6 lower-case letters with an
    optional dot and 2 letters more, up to the end. The second branch is
    not anchored at the start: the at-sign, an optional opening bracket,
    four numbers of at most three digits separated by dots, an optional
    closing bracket, up to the end. *)
Definition mailRegexp : regex :=
  Or (Seq Start
       (Seq (Or mailQuoted (Or mailDotted (Seq mailQuoted mailDotted))) mailDomain))
     mailAddressLiteral.

(** The annotations [extractLinksFromMetadata] builds; [id] is added by
    [main]. *)
Record LinkBox := { box_l : number; box_t : number; box_w : number; box_h : number }.
Record LinkAction := { target : jsval; action_type : jsval }.
Record MdLink := {
  box : LinkBox;
  link : LinkAction;
  page : Z;
  id : option nat
}.

(** What the child process did: the chunks it wrote to its standard error,
    its exit code ([None] is [null]) and the XML file it left. *)
Record ProcessRun := {
  stderr : list string;
  exitCode : option Z;
  xmlOutputFile : string
}.

Definition setProperty (k : string) (v : jsval) (word : Word) : Word :=
  {| word_box := word_box word;
     word_content := word_content word;
     word_font := word_font word;
     properties := <[k := v]> (properties word) |}.

(** Two words with the same box and characters: the properties apart. *)
Definition sameWord (a b : Word) : Prop :=
  word_box a = word_box b ∧ word_content a = word_content b.

(** [!word.properties.link] is false. *)
Definition hasLink (word : Word) : bool :=
  match properties word !! "link" with
  | Some v => truthy v
  | None => false
  end.

(** Members that every object inherits; [typeMap[type]] finds them too. *)
Definition inheritedNames : list string :=
  ["constructor"; "toString"; "valueOf"; "hasOwnProperty"; "isPrototypeOf";
   "propertyIsEnumerable"; "toLocaleString"; "__proto__"; "__defineGetter__";
   "__defineSetter__"; "__lookupGetter__"; "__lookupSetter__"].

(** Modelled from the spec: [Page.getElementsOfType(Word, true)] is not
    part of the sources at hand. It yields every word of the page, the
    words inside composite elements included; the words are objects of the
    page, so what is assigned to them is assigned in the page. *)
Fixpoint mapWords (f : Word → Word) (e : Element) : Element :=
  match e with
  | EWord w => EWord (f w)
  | EImage i => EImage i
  | EComposite children => EComposite (map (mapWords f) children)
  end.

Section Externals.

Variable parseFloat : string → number.
(** The coercion of a string to a number, as subtraction performs it. *)
Variable toNumber : string → number.
(** [BoundingBox.getPercentageOfInclusion] *)
Variable getPercentageOfInclusion : BoundingBox.t → BoundingBox.t → number.
(** [utils.getCommandLocationOnSystem] *)
Variable getCommandLocationOnSystem : string → option string.
(** The run of dumppdf at a location on a pdf file. *)
Variable spawn : string → string → ProcessRun.
(** [utils.parseXmlToObject]; like its namesake of pdfminer.ts it rejects
    when the parser reports an error. *)
Variable parseXmlToObject : string → Promise jsval.
(** The number of nested calls the stack of the engine admits; a call
    beyond it throws a [RangeError]. *)
Variable stackDepth : nat.

Definition matchTextualLinks (word : Word) : Word :=
  let text := wordToString word in
  if matches linkRegexp text then
    setProperty "targetURL" (JString text)
      (setProperty "link" (JString ("[" +:+ text +:+ "](" +:+ text +:+ ")")) word)
  else if matches mailRegexp text then
    setProperty "targetURL" (JString ("mailto:" +:+ text))
      (setProperty "link" (JString ("[" +:+ text +:+ "](mailto:" +:+ text +:+ ")")) word)
  else word.

(** [getFileMetadata]. The promise is settled by the first call of
    [resolve] or [reject]:
    - [spawn] throws when it is given no command; the executor of the
      promise turns the exception into a rejection;
    - the chunks of the standard error arrive before [close];
    - a rejection of [parseXmlToObject(xml)] reaches no handler (the [try]
      covers only the synchronous call), and the promise never settles. *)
Definition dumppdfLocation : option string :=
  if Pdfminer.found (getCommandLocationOnSystem "dumppdf.py")
  then getCommandLocationOnSystem "dumppdf.py"
  else getCommandLocationOnSystem "dumppdf".

Definition getFileMetadata (pdfFilePath : string) : Promise jsval :=
  match dumppdfLocation with
  | None | Some EmptyString => Rejected "TypeError"
  | Some location =>
      let dumppdf := spawn location pdfFilePath in
      match stderr dumppdf with
      | data :: _ => Rejected data
      | [] =>
          let code := exitCode dumppdf in
          if bool_decide (code = Some 0%Z) then
            let xml := xmlOutputFile dumppdf in
            match parseXmlToObject xml with
            | Resolved obj => Resolved obj
            | _ => Pending
            end
          else Rejected ("dumppdf return code is " +:+ Pdfminer.showCode code)
      end
  end.

(** The failures of the tool itself: dumppdf is not on the system, it
    writes to its standard error, or it does not exit with code 0. *)
Definition toolFails (pdfFilePath : string) : Prop :=
  match dumppdfLocation with
  | None | Some EmptyString => True
  | Some location =>
      stderr (spawn location pdfFilePath) ≠ []
      ∨ exitCode (spawn location pdfFilePath) ≠ Some 0%Z
  end.

Definition parseAction (obj : jsval) (type : jsval) : Completion jsval :=
  key ← get [P "key"] obj ≫= asArray;
  let index := findIndex (λ k, strictEq k type) key in
  get [P "value"; I index; P "string"; I 0; P "_"] obj.

Definition typeMap (type : jsval) : jsval :=
  let name := toString type in
  if bool_decide (name = "GoTo") then JString "D"
  else if bool_decide (name ∈ inheritedNames) then JObject []
  else JUndefined.

Definition parseLinkByActionType (obj : jsval) : Completion LinkAction :=
  key ← get [P "key"] obj ≫= asArray;
  let typeIndex := findIndex (λ k, strictEq k (JString "S")) key in
  type ← get [P "value"; I typeIndex; P "literal"; I 0] obj;
  target ← parseAction obj (if truthy (typeMap type) then typeMap type else type);
  mret {| target := target; action_type := type |}.

Definition buildLinkMD (word : Word) (l : MdLink) : string * jsval :=
  let target := target (link l) in
  let target :=
    if strictEq (action_type (link l)) (JString "GoTo")
    then JString ("#" +:+ toString target) else target in
  ("[" +:+ wordToString word +:+ "](" +:+ toString target +:+ ")", target).

(** [objects.find(o => o.$.id === id)] *)
Fixpoint findObject (objects : list jsval) (id : jsval) : Completion jsval :=
  match objects with
  | [] => mret JUndefined
  | o :: rest =>
      oid ← get [P "$"; P "id"] o;
      if strictEq oid id then mret o else findObject rest id
  end.

Definition refIds (refs : jsval) : Completion (list jsval) :=
  items ← asArray refs;
  mapM (get [P "$"; P "id"]) items.

Fixpoint deepSearchObjectsWithIds (depth : nat) (objects : list jsval) (ids : list jsval)
    : Completion (list jsval) :=
  match depth with
  | 0 => Throw "RangeError"
  | S depth' =>
      foldlM (λ result id,
          obj ← findObject objects id;
          dict ← get [P "dict"] obj;
          if truthy dict then mret (result ++ [obj])
          else
            ids' ← get [P "list"; I 0; P "ref"] obj ≫= refIds;
            found ← deepSearchObjectsWithIds depth' objects ids';
            mret (result ++ found))
        [] ids
  end.

(** The number a value stands for in a subtraction. *)
Definition toNum (v : jsval) : number :=
  match v with
  | JUndefined => NaN
  | _ => toNumber (toString v)
  end.

Definition isPage (o : jsval) : Completion bool :=
  dict ← get [P "dict"] o;
  if truthy dict then
    value ← get [I 0; P "value"] dict ≫= asArray;
    someM (λ v, literal ← get [P "literal"] v;
                if truthy literal then jsIncludes "Page" literal else mret false) value
  else mret false.

Definition hasAnnots (o : jsval) : Completion bool :=
  dict ← get [P "dict"] o;
  if truthy dict then get [I 0; P "key"] dict ≫= jsIncludes "Annots"
  else mret false.

(** The body of [pagesWithAnnots.forEach], up to the [push]. *)
Definition pageAnnotations (objects pages : list jsval) (pageObject : jsval)
    : Completion (list MdLink) :=
  dict0 ← get [P "dict"; I 0] pageObject;
  pageHeightIndex ← get [P "key"] dict0 ≫= jsIndexOf "MediaBox";
  pageHeight ← get [P "value"; I pageHeightIndex; P "list"; I 0; P "number"; I 3] dict0;
  annotsValueIndex ← get [P "key"] dict0 ≫= jsIndexOf "Annots";
  annotsValue ← get [P "value"; I annotsValueIndex] dict0;
  annotsList ← get [P "list"] annotsValue;
  annotObjIds ←
    (if truthy annotsList then get [P "list"; I 0; P "ref"] annotsValue ≫= refIds
     else get [P "ref"] annotsValue ≫= refIds);
  pageAnnots ← deepSearchObjectsWithIds stackDepth objects annotObjIds;
  mapM (λ annot,
      adict ← get [P "dict"; I 0] annot;
      rectValueIndex ← get [P "key"] adict ≫= jsIndexOf "Rect";
      linkValueIndex ← get [P "key"] adict ≫= jsIndexOf "A";
      numbers ← get [P "value"; I rectValueIndex; P "list"; I 0; P "number"] adict;
      n0 ← get [I 0] numbers;
      n1 ← get [I 1] numbers;
      n2 ← get [I 2] numbers;
      n3 ← get [I 3] numbers;
      action ← get [P "value"; I linkValueIndex; P "dict"; I 0] adict ≫= parseLinkByActionType;
      pageIds ← mapM (get [P "$"; P "id"]) pages;
      pageId ← get [P "$"; P "id"] pageObject;
      mret {| box := {| box_l := parseFloat (toString n0);
                        box_t := JS.sub (toNum pageHeight) (toNum n3);
                        box_w := JS.sub (toNum n2) (toNum n0);
                        box_h := JS.sub (toNum n3) (toNum n1) |};
              link := action;
              page := (findIndex (λ p, strictEq p pageId) pageIds + 1)%Z;
              id := None |})
    pageAnnots.

(** [pagesWithAnnots.forEach] inside the [try]: the annotations of a page
    are pushed once the page has been read; an exception ends the loop and
    leaves what was pushed. *)
Fixpoint collectAnnots (objects pages pagesWithAnnots : list jsval) (annots : list MdLink)
    : list MdLink :=
  match pagesWithAnnots with
  | [] => annots
  | pageObject :: rest =>
      match pageAnnotations objects pages pageObject with
      | Normal pageAnnots => collectAnnots objects pages rest (annots ++ pageAnnots)
      | Throw _ => annots
      end
  end.

(** The start of the [try] block: the objects of the metadata, the pages
    among them, and the pages that have annotations. *)
Definition readPages (metadata : jsval) : Completion (list jsval * list jsval * list jsval) :=
  objects ← get [P "pdf"; P "object"] metadata ≫= asArray;
  pages ← filterM isPage objects;
  pagesWithAnnots ← filterM hasAnnots pages;
  mret (objects, pages, pagesWithAnnots).

(** [extractLinksFromMetadata]: whatever is thrown inside the [try], a
    rejection of the promise awaited included, is caught and logged, and
    [annots] is returned as it is then. A promise that never settles is
    awaited for ever. *)
Definition extractLinksFromMetadata (file : string) : Promise (list MdLink) :=
  let annots := [] in
  match getFileMetadata file with
  | Resolved metadata =>
      match readPages metadata with
      | Normal (objects, pages, pagesWithAnnots) =>
          Resolved (collectAnnots objects pages pagesWithAnnots annots)
      | Throw _ => Resolved annots
      end
  | Rejected _ => Resolved annots
  | Pending => Pending
  end.

(** The test of [links.forEach]: the ratio exceeds 0.7. *)
Definition exceeds (word : Word) (l : MdLink) : bool :=
  let linkBB := BoundingBox.make (box_l (box l)) (box_t (box l)) (box_w (box l)) (box_h (box l)) in
  JS.gt (JS.abs (getPercentageOfInclusion linkBB (word_box word))) (Some (Q2Qc (7 # 10))).

(** One turn of [links.forEach] for a word. *)
Definition matchAnnotation (word : Word) (l : MdLink) : Word :=
  if exceeds word l
  then
    let '(mdLink, targetURL) := buildLinkMD word l in
    setProperty "targetURL" targetURL (setProperty "link" (JString mdLink) word)
  else word.

(** The body of [forEach(word => ...)]. *)
Definition processWord (links : list MdLink) (word : Word) : Word :=
  let word := foldl matchAnnotation word links in
  if negb (hasLink word) then matchTextualLinks word else word.

Definition withId (i : nat) (l : MdLink) : MdLink :=
  {| box := box l; link := link l; page := page l; id := Some i |}.

(** [main] after the [await]: the words of every page are matched with
    the annotations of the page. *)
Definition annotate (mdLinks : list MdLink) (doc : Document) : Document :=
  let mdLinks := imap withId mdLinks in
  {| pages :=
       (λ page,
          let links :=
            List.filter (λ link, bool_decide (JS.ofZ (LinkDetection.page link) = pageNumber page))
                        mdLinks in
          {| pageNumber := pageNumber page;
             elements := mapWords (processWord links) <$> elements page;
             page_box := page_box page |}) <$> pages doc;
     inputFile := inputFile doc |}.

Definition main (doc : Document) : Promise Document :=
  match extractLinksFromMetadata (inputFile doc) with
  | Resolved mdLinks => Resolved (annotate mdLinks doc)
  | Rejected error => Rejected error
  | Pending => Pending
  end.

End Externals.

(** The graph of the metadata objects. A reference resolves to a
    dictionary object, or to the references of a list object; [refersTo] is
    the edge from the reference of a list object to the references it
    holds. *)
Definition classify (objects : list jsval) (id : jsval) : Completion (jsval + list jsval) :=
  obj ← findObject objects id;
  dict ← get [P "dict"] obj;
  if truthy dict then mret (inl obj)
  else ids' ← get [P "list"; I 0; P "ref"] obj ≫= refIds; mret (inr ids').
Definition refersTo (objects : list jsval) (id id' : jsval) : Prop :=
  ∃ ids', classify objects id = Normal (inr ids') ∧ id' ∈ ids'.
Definition reachable (objects : list jsval) (ids : list jsval) (id : jsval) : Prop :=
  ∃ i, i ∈ ids ∧ rtc (refersTo objects) i id.
(** Every reference that is met resolves to a dictionary or to a list of
    references; no reference that is met leads back to itself. *)
Definition resolves (objects : list jsval) (ids : list jsval) : Prop :=
  ∀ id, reachable objects ids id → ∃ k, classify objects id = Normal k.
Definition acyclic (objects : list jsval) (ids : list jsval) : Prop :=
  ∀ id, reachable objects ids id → ¬ tc (refersTo objects) id id.
(** The dictionary objects below a list of references, depth first and
    from left to right. *)
Inductive depthFirst (objects : list jsval) : list jsval → list jsval → Prop :=
| depthFirst_nil : depthFirst objects [] []
| depthFirst_dict id ids obj found :
    classify objects id = Normal (inl obj) →
    depthFirst objects ids found →
    depthFirst objects (id :: ids) (obj :: found)
| depthFirst_list id ids ids' below found :
    classify objects id = Normal (inr ids') →
    depthFirst objects ids' below →
    depthFirst objects ids found →
    depthFirst objects (id :: ids) (below ++ found).
(** The reference of an object. *)
Definition hasId (objects : list jsval) (id : jsval) (n : nat) : Prop :=
  ∃ obj, objects !! n = Some obj ∧ get [P "$"; P "id"] obj = Normal id.

End LinkDetection.

(** ** types/DocumentRepresentation/TableOfContents.ts *)

Module TableOfContents.

(** The class [TableOfContentsItem] is not part of the sources at hand; an
    item is represented by the three arguments its constructor receives. *)
Record TableOfContentsItem := {
  item_text : string;
  item_pageNum : string;
  item_level : Z
}.

(** Arrays are objects: a variable holds a reference to one, and two
    variables may hold the same reference. The store maps the references
    that are in use to the present content of their arrays. *)
Definition ref : Type := positive.
Record Store := {
  elementArrays : gmap ref (list Element);
  itemArrays : gmap ref (list TableOfContentsItem)
}.

(** The private fields [_items] and [_content] of a table of contents. *)
Record t := { _items : ref; _content : ref }.

Section Externals.

(** [Element.toMarkdown], which every kind of element implements. *)
Variable toMarkdown : Element → string.

Definition contentToTOCItem (element : Element) : TableOfContentsItem :=
  {| item_text := toMarkdown element; item_pageNum := "0"; item_level := 0 |}.

(** The arrays behind two references. *)
Definition elementsAt (σ : Store) (r : ref) : list Element :=
  default [] (elementArrays σ !! r).
Definition itemsAt (σ : Store) (r : ref) : list TableOfContentsItem :=
  default [] (itemArrays σ !! r).

(** A new array with the given members. *)
Definition newElementArray (l : list Element) (σ : Store) : ref * Store :=
  let r := fresh (dom (elementArrays σ)) in
  (r, {| elementArrays := <[r := l]> (elementArrays σ); itemArrays := itemArrays σ |}).
Definition newItemArray (l : list TableOfContentsItem) (σ : Store) : ref * Store :=
  let r := fresh (dom (itemArrays σ)) in
  (r, {| elementArrays := elementArrays σ; itemArrays := <[r := l]> (itemArrays σ) |}).

(** [array.push(element)]: the array is changed in place. *)
Definition push (r : ref) (element : Element) (σ : Store) : Store :=
  {| elementArrays := <[r := elementsAt σ r ++ [element]]> (elementArrays σ);
     itemArrays := itemArrays σ |}.
(** [array[i] = element] for an index within the array. *)
Definition assign (r : ref) (i : nat) (element : Element) (σ : Store) : Store :=
  {| elementArrays := <[r := <[i := element]> (elementsAt σ r)]> (elementArrays σ);
     itemArrays := itemArrays σ |}.

(** The initial values of the two fields. *)
Definition create (σ : Store) : t * Store :=
  let '(items, σ) := newItemArray [] σ in
  let '(content, σ) := newElementArray [] σ in
  ({| _items := items; _content := content |}, σ).

Definition get_content (this : t) : ref := _content this.
Definition get_items (this : t) : ref := _items this.
Definition set_items (this : t) (items : ref) : t :=
  {| _items := items; _content := _content this |}.

(** [this.items = this.content.map(this.contentToTOCItem)]: [map] builds a
    new array. *)
Definition updateItems (this : t) (σ : Store) : t * Store :=
  let '(items, σ) := newItemArray (contentToTOCItem <$> elementsAt σ (get_content this)) σ in
  (set_items this items, σ).

Definition set_content (this : t) (value : ref) (σ : Store) : t * Store :=
  let this := {| _items := _items this; _content := value |} in
  updateItems this σ.

End Externals.

End TableOfContents.

(** ** The server manager of the configuration tool *)

Module ServerManager.

Record Dirent := { name : string; isDirectory : bool }.

Definition defaultModulesFolder : string := "../../server/src/processing".

(** [d.replace(/([a-z])([A-Z])/g, '$1-$2')]: the search for the next match
    starts after the capital of the last one. *)
Fixpoint insertDashes (d : string) : string :=
  match d with
  | String a (String b rest as tail) =>
      if isLower a && isUpper b
      then String a (String "-" (String b (insertDashes rest)))
      else String a (insertDashes tail)
  | _ => d
  end.

(** [d.replace(pattern, '')] for the global regular expression of a
    non-empty literal [pattern]: the occurrences are found from left to
    right, each search starting after the last occurrence. [skip] counts
    the characters of an occurrence that are still to be passed over. *)
Fixpoint removeAllFrom (pattern : string) (skip : nat) (d : string) : string :=
  match d with
  | EmptyString => EmptyString
  | String c d' =>
      match skip with
      | S n => removeAllFrom pattern n d'
      | 0 =>
          if String.prefix pattern d
          then removeAllFrom pattern (String.length pattern - 1) d'
          else String c (removeAllFrom pattern 0 d')
      end
  end.
Definition removeAll (pattern d : string) : string := removeAllFrom pattern 0 d.

(** The name [getModules] gives to a directory. *)
Definition moduleName (d : string) : string :=
  removeAll "-module" (toLowerCase (insertDashes d)).

(** [w[0].toUpperCase() + w.substr(1).toLowerCase()]; [w[0]] is
    [undefined] for the empty string. *)
Definition capitalize (w : string) : Completion string :=
  match w with
  | EmptyString => Throw "TypeError"
  | String c w' => Normal (String (upperChar c) (toLowerCase w'))
  end.

(** The folder name [getModuleConfig] builds from the name of a module. *)
Definition moduleFolderName (moduleName : string) : Completion string :=
  let moduleName := moduleName +:+ "-module" in
  ws ← mapM capitalize (JS.split "-" moduleName);
  mret (JS.join ws).

(** Names of directories: a capitalized word is a capital letter followed by
    one or more small letters; [dashed] joins words with dashes. *)
Fixpoint allLower (s : string) : bool :=
  match s with
  | EmptyString => true
  | String c s' => isLower c && allLower s'
  end.
Definition capitalizedWord (w : string) : bool :=
  match w with
  | String c (String d rest) => isUpper c && isLower d && allLower rest
  | _ => false
  end.
Fixpoint dashed (ws : list string) : string :=
  match ws with
  | [] => EmptyString
  | [w] => w
  | w :: ws' => w +:+ "-" +:+ dashed ws'
  end.
(** The words of [ws], each after a dash. *)
Fixpoint dashTail (ws : list string) : string :=
  match ws with
  | [] => EmptyString
  | w :: ws' => "-" +:+ w +:+ dashTail ws'
  end.

Section Externals.

(** [readdirSync(folder, { withFileTypes: true })] *)
Variable readdirSync : string → list Dirent.
(** [JSON.parse(readFileSync(path, 'utf-8'))] *)
Variable readJson : string → Completion jsval.

Definition getModules : list string :=
  moduleName <$> (name <$> List.filter isDirectory (readdirSync defaultModulesFolder)).

(** The file [getModuleConfig] reads. *)
Definition moduleConfigPath (moduleName : string) : Completion string :=
  moduleFolderName ← moduleFolderName moduleName;
  mret (defaultModulesFolder +:+ "/" +:+ moduleFolderName +:+ "/defaultConfig.json").

Definition getModuleConfig (moduleName : string) : Completion jsval :=
  moduleConfigPath moduleName ≫= readJson.

End Externals.

End ServerManager.

(** ** Concrete collaborators and inputs, for the examples of Part II *)

Module Sample.

(** A reading of numerals that agrees with [parseFloat] and with the
    coercion to a number on the strings of decimal digits. *)
Fixpoint readDigits (s : string) (acc : Z) : option Z :=
  match s with
  | EmptyString => Some acc
  | String c s' =>
      if isDigit c then readDigits s' (10 * acc + Z.of_nat (nat_of_ascii c - 48))%Z
      else None
  end.
Definition parseFloat (s : string) : number :=
  match s with
  | EmptyString => NaN
  | _ => readDigits s 0 ≫= JS.ofZ
  end.

Definition emptyBox : BoundingBox.t :=
  BoundingBox.make (JS.ofZ 0) (JS.ofZ 0) (JS.ofZ 0) (JS.ofZ 0).
Definition merge (boxes : list BoundingBox.t) : BoundingBox.t := default emptyBox (head boxes).
Definition undefinedFont : Font.t :=
  Font.make "undefined" (JS.ofZ 0) Font.medium false false "#000000".
Definition pathJoin (a b : string) : string := a +:+ "/" +:+ b.
Definition getAllElements (doc : Document) : list Element := pages doc ≫= elements.

Definition times : Font.t := Font.make "Times" (JS.ofZ 10) Font.medium false false "#000000".
Definition arial : Font.t := Font.make "Arial" (JS.ofZ 10) Font.medium false false "#000000".
Definition courier : Font.t := Font.make "Courier" (JS.ofZ 10) Font.medium false false "#000000".

(** A word with the given text, one character per byte. *)
Definition word (text : string) : Word :=
  {| word_box := emptyBox;
     word_content := (λ c, {| char_box := emptyBox;
                              char_content := String c EmptyString;
                              char_font := times |}) <$> list_ascii_of_string text;
     word_font := times;
     properties := ∅ |}.

(** The document an OCR run of an image resolves with: two words. *)
Definition ocrDocument : Document :=
  {| pages := [ {| pageNumber := JS.ofZ 1;
                   elements := [EWord (word "scanned"); EWord (word "text")];
                   page_box := emptyBox |} ];
     inputFile := "imgs/img0.jpg" |}.
Definition ocr (file : string) : Promise Document := Resolved ocrDocument.

(** A page with no text and one figure that holds one image. *)
Definition figurePage : Pdfminer.PdfminerPage :=
  {| Pdfminer.page_id := "1";
     Pdfminer.page_bbox := "0,0,100,200";
     Pdfminer.textbox := None;
     Pdfminer.figure :=
       Some [ {| Pdfminer.figure_bbox := "10,10,50,50";
                 Pdfminer.image := [ {| Pdfminer.image_src := "img0.jpg" |} ] |} ] |}.
Definition config : Pdfminer.Config := {| Pdfminer.extractor_img := "tesseract" |}.


(** The environment of a run of [execute]: pdf2txt.py is installed, and
    leaves a file that holds either the XML of [figurePage] or text that is
    no XML. *)
Definition getCommandLocationOnSystem (command : string) : option string :=
  if bool_decide (command = "pdf2txt.py") then Some "/usr/bin/pdf2txt.py" else None.
Definition repairPdf (file : string) : string := file.
Definition spawn (location file : string) : Pdfminer.ProcessRun :=
  if bool_decide (file = "good.pdf")
  then {| Pdfminer.exitCode := Some 0%Z; Pdfminer.xmlOutputFile := "<pages>...</pages>" |}
  else if bool_decide (file = "odd.pdf")
  then {| Pdfminer.exitCode := Some 0%Z; Pdfminer.xmlOutputFile := "<pages><page" |}
  else {| Pdfminer.exitCode := Some 1%Z; Pdfminer.xmlOutputFile := EmptyString |}.
Definition parseString (xml : string) : string + Pdfminer.PdfminerOutput :=
  if bool_decide (xml = "<pages>...</pages>")
  then inr {| Pdfminer.xml_pages := Some {| Pdfminer.page := Some [figurePage] |} |}
  else inl "Error: Unclosed root tag".


(** A store with one array of two words, and a table of contents created
    in it. *)
Definition toMarkdown (e : Element) : string :=
  match e with
  | EWord w => wordToString w
  | EImage i => "![](" +:+ src i +:+ ")"
  | EComposite _ => EmptyString
  end.
Definition tocStore : TableOfContents.Store :=
  {| TableOfContents.elementArrays := {[ 7%positive := [EWord (word "Intro"); EWord (word "Scope")] ]};
     TableOfContents.itemArrays := ∅ |}.


(** The slots of a line of text: a glyph, the space that the layout
    analysis of pdfminer inserts (no text, no attributes), and the glyph of
    a space (no text, but attributes). *)
Definition attributes : Pdfminer.TextAttr :=
  {| Pdfminer.attr_font := "Times"; Pdfminer.attr_bbox := "0,0,5,10";
     Pdfminer.attr_size := "10"; Pdfminer.attr_ncolour := "0" |}.
Definition glyph (c : string) : Pdfminer.PdfminerText :=
  {| Pdfminer.charkey := Some c; Pdfminer.text_attr := Some attributes |}.
Definition layoutSpace : Pdfminer.PdfminerText :=
  {| Pdfminer.charkey := None; Pdfminer.text_attr := None |}.
Definition spaceGlyph : Pdfminer.PdfminerText :=
  {| Pdfminer.charkey := None; Pdfminer.text_attr := Some attributes |}.
(** a, layout space, b, layout space, space glyph, c *)
Definition spacedLine : Pdfminer.PdfminerTextline :=
  {| Pdfminer.text := [glyph "a"; layoutSpace; glyph "b"; layoutSpace; spaceGlyph; glyph "c"] |}.
(** a, layout space, b *)
Definition plainLine : Pdfminer.PdfminerTextline :=
  {| Pdfminer.text := [glyph "a"; layoutSpace; glyph "b"] |}.

(** The texts of the words of a line. *)
Definition wordsOf (line : Pdfminer.PdfminerTextline) : Completion (list string) :=
  JS.bind (Pdfminer.breakLineIntoWords parseFloat parseFloat merge undefinedFont
             line " " (JS.ofZ 100) (JS.ofZ 1))
          (λ words, Normal (wordToString <$> words)).


(** Modelled from the spec: [BoundingBox.getPercentageOfInclusion] is not
    part of the sources at hand. The overlap ratio of [a] and [b] is the
    area of their intersection divided by the area of [a]. *)
Definition qmin (x y : Qc) : Qc := if decide (x ≤ y)%Qc then x else y.
Definition qmax (x y : Qc) : Qc := if decide (x ≤ y)%Qc then y else x.
Definition getPercentageOfInclusion (a b : BoundingBox.t) : number :=
  match BoundingBox.left a, BoundingBox.top a, BoundingBox.width a, BoundingBox.height a,
        BoundingBox.left b, BoundingBox.top b, BoundingBox.width b, BoundingBox.height b with
  | Some al, Some at_, Some aw, Some ah, Some bl, Some bt, Some bw, Some bh =>
      let w := qmax 0 (qmin (al + aw) (bl + bw) - qmax al bl)%Qc in
      let h := qmax 0 (qmin (at_ + ah) (bt + bh) - qmax at_ bt)%Qc in
      if decide (aw * ah = 0)%Qc then NaN else Some (w * h / (aw * ah))%Qc
  | _, _, _, _, _, _, _, _ => NaN
  end.

(** A word and three annotations of its page: the first two cover the
    word, the third lies elsewhere. *)
Definition boxAt (l t w h : Z) : BoundingBox.t :=
  BoundingBox.make (JS.ofZ l) (JS.ofZ t) (JS.ofZ w) (JS.ofZ h).
Definition wordAt (text : string) (b : BoundingBox.t) : Word :=
  {| word_box := b;
     word_content := word_content (word text);
     word_font := times;
     properties := ∅ |}.
Definition annotation (l t w h : Z) (url : string) : LinkDetection.MdLink :=
  {| LinkDetection.box :=
       {| LinkDetection.box_l := JS.ofZ l; LinkDetection.box_t := JS.ofZ t;
          LinkDetection.box_w := JS.ofZ w; LinkDetection.box_h := JS.ofZ h |};
     LinkDetection.link :=
       {| LinkDetection.target := JString url; LinkDetection.action_type := JString "URI" |};
     LinkDetection.page := 1;
     LinkDetection.id := None |}.
Definition linkedWord : Word := wordAt "Parsr" (boxAt 10 10 40 10).
Definition firstLink : LinkDetection.MdLink := annotation 10 10 40 10 "https://first.example".
Definition secondLink : LinkDetection.MdLink := annotation 10 10 50 10 "https://second.example".
Definition farLink : LinkDetection.MdLink := annotation 300 300 40 10 "https://far.example".


(** Two fonts that occur twice each, the first of them first. *)
Definition tiedFonts : list Font.t := [arial; times; times; courier; arial].


(** Metadata as the XML parser hands it back. *)
Definition ref (id : string) : jsval := JObject [("$", JObject [("id", JString id)])].
Definition strings (l : list string) : jsval := JArray (JString <$> l).
Definition literal (s : string) : jsval := JObject [("literal", strings [s])].
Definition numbers (l : list string) : jsval :=
  JObject [("list", JArray [JObject [("number", strings l)]])].
Definition refs (ids : list string) : jsval :=
  JObject [("list", JArray [JObject [("ref", JArray (ref <$> ids))]])].
Definition object (id : string) (keys : list string) (values : list jsval) : jsval :=
  JObject [("$", JObject [("id", JString id)]);
           ("dict", JArray [JObject [("key", strings keys); ("value", JArray values)]])].
Definition listObject (id : string) (ids : list string) : jsval :=
  JObject [("$", JObject [("id", JString id)]);
           ("list", JArray [JObject [("ref", JArray (ref <$> ids))]])].
Definition uriAction (url : string) : jsval :=
  JObject [("dict", JArray [JObject
    [("key", strings ["S"; "URI"]);
     ("value", JArray [literal "URI";
                       JObject [("string", JArray [JObject [("_", JString url)]])]])]])].

(** A graph of four objects: the list 5 refers to the dictionary 7 and to
    the list 8, which refers to the dictionary 9. *)
Definition graph : list jsval :=
  [listObject "5" ["7"; "8"]; object "7" [] []; listObject "8" ["9"]; object "9" [] []].
Definition graphIds : list jsval := [JString "5"; JString "9"].
Definition rank (id : jsval) : nat :=
  if isString "5" id then 3 else if isString "8" id then 2 else 1.

(** The metadata of a file of two pages, each with a reference to the same
    link annotation; the second page has no MediaBox of its own. *)
Definition linkAnnotation : jsval :=
  object "10" ["Subtype"; "Rect"; "A"]
    [literal "Link"; numbers ["10"; "10"; "50"; "20"]; uriAction "https://example.com"].
Definition firstPage : jsval :=
  object "3" ["Type"; "MediaBox"; "Annots"]
    [literal "Page"; numbers ["0"; "0"; "612"; "792"]; refs ["10"]].
Definition secondPage : jsval :=
  object "4" ["Type"; "Annots"] [literal "Page"; refs ["10"]].
Definition metadata : jsval :=
  JObject [("pdf", JObject [("object", JArray [firstPage; secondPage; linkAnnotation])])].

(** The environment of a run of link detection: dumppdf is installed; it
    writes nothing to its standard error and exits with code 0; the file it
    leaves holds the metadata above, or text that is no XML. *)
Definition dumppdfLocation (command : string) : option string :=
  if bool_decide (command = "dumppdf.py") then Some "/usr/bin/dumppdf.py" else None.
Definition dumppdf (location file : string) : LinkDetection.ProcessRun :=
  {| LinkDetection.stderr := [];
     LinkDetection.exitCode := Some 0%Z;
     LinkDetection.xmlOutputFile :=
       if bool_decide (file = "two-pages.pdf") then "<pdf>...</pdf>" else "<pdf><object" |}.
Definition parseXmlToObject (xml : string) : Promise jsval :=
  if bool_decide (xml = "<pdf>...</pdf>") then Resolved metadata
  else Rejected "Error: Unclosed root tag".
(** The annotation of the first page, as [extractLinksFromMetadata] builds
    it. *)
Definition firstAnnotation : LinkDetection.MdLink :=
  {| LinkDetection.box :=
       {| LinkDetection.box_l := JS.ofZ 10; LinkDetection.box_t := JS.ofZ 772;
          LinkDetection.box_w := JS.ofZ 40; LinkDetection.box_h := JS.ofZ 10 |};
     LinkDetection.link :=
       {| LinkDetection.target := JString "https://example.com";
          LinkDetection.action_type := JString "URI" |};
     LinkDetection.page := 1;
     LinkDetection.id := None |}.
Definition twoPages : Document :=
  {| pages := [ {| pageNumber := JS.ofZ 1;
                   elements := [EWord linkedWord];
                   page_box := boxAt 0 0 612 792 |} ];
     inputFile := "two-pages.pdf" |}.
Definition broken : Document := {| pages := []; inputFile := "broken.pdf" |}.

End Sample.

(** ** The steps of [breakLineIntoWords]

    [breakLineIntoWords] reads the slots of a line into characters, drops
    the first and the last slot when they separate nothing, and cuts what is
    left at the empty slots. The three steps are named here; together they
    are the function ([Lines.breakLineIntoWords_steps]). *)

Module Lines.
Import Pdfminer.

Section Externals.

Variable parseFloat : string → number.
Variable toNumber : string → number.
Variable merge : list BoundingBox.t → BoundingBox.t.
Variable undefinedFont : Font.t.

#[local] Abbreviation getBoundingBox := (Pdfminer.getBoundingBox parseFloat).
#[local] Abbreviation ncolourToHex := (Pdfminer.ncolourToHex toNumber).
#[local] Abbreviation newWord := (Pdfminer.newWord merge undefinedFont).

(** The callback of [line.text.filter(...).map(...)]. *)
Definition readSlot (pageHeight scalingFactor : number) (char : PdfminerText)
    : Completion (option Character) :=
  match charkey char with
  | None => mret None
  | Some c =>
      match text_attr char with
      | None => Throw "TypeError"
      | Some a =>
          let font :=
            Font.make (attr_font a) (parseFloat (attr_size a))
              (if JS.includes "bold" (JS.toLowerCase (attr_font a)) then Font.bold else Font.medium)
              (JS.includes "italic" (JS.toLowerCase (attr_font a)))
              (JS.includes "underline" (JS.toLowerCase (attr_font a)))
              (ncolourToHex (attr_ncolour a)) in
          let charContent := getValidCharacter c in
          mret (Some {| char_box := getBoundingBox (attr_bbox a) "," pageHeight scalingFactor;
                        char_content := charContent;
                        char_font := font |})
      end
  end.

(** The two calls of [chars.splice]. *)
Definition trimEnds (wordSeparator : string) (chars : list (option Character))
    : list (option Character) :=
  let chars :=
    match chars with
    | c :: rest => if isSeparator wordSeparator c then rest else chars
    | [] => chars
    end in
  match last chars with
  | Some c => if isSeparator wordSeparator c then take (length chars - 1) chars else chars
  | None => chars
  end.

(** The positions kept in [sepLocs]. *)
Definition sepLocs (chars : list (option Character)) : list nat :=
  List.filter (λ l, negb (l =? 0) && negb (l =? length chars))
    (omap id (imap (λ i c, if isUndefined c then Some i else None) chars)).

(** The rest of the function, from the test of [chars.length] on. *)
Definition cutAtEmptySlots (chars : list (option Character)) : list Word :=
  match chars with
  | [] | [None] => []
  | _ =>
      let sepLocs := sepLocs chars in
      let defined (cs : list (option Character)) : list Character := omap id cs in
      match sepLocs with
      | [] => [newWord (defined chars)]
      | first :: _ =>
          let charSelection := defined (JS.slice 0 first chars) in
          let words := if bool_decide (0 < length charSelection) then [newWord charSelection] else [] in
          foldl (λ words i,
                  let from := default 0 (sepLocs !! i) + 1 in
                  let to := if bool_decide (i ≠ length sepLocs - 1)
                            then default 0 (sepLocs !! (i + 1)) else length chars in
                  let charSelection := defined (JS.slice from to chars) in
                  if bool_decide (0 < length charSelection)
                  then words ++ [newWord charSelection] else words)
                words (seq 0 (length sepLocs))
      end
  end.

End Externals.

(** The runs of characters of a sequence of slots: a new run starts after
    every empty slot. *)
Fixpoint runs (chars : list (option Character)) : list (list Character) :=
  match chars with
  | [] => [[]]
  | None :: rest => [] :: runs rest
  | Some c :: rest =>
      match runs rest with
      | run :: others => (c :: run) :: others
      | [] => [[c]]
      end
  end.

(** The slices that the loop of [cutAtEmptySlots] takes: from [from] to the
    first position, then between consecutive positions, then to the end. *)
Fixpoint slices {A} (from : nat) (positions : list nat) (l : list A) : list (list A) :=
  match positions with
  | [] => [JS.slice from (length l) l]
  | p :: positions' => JS.slice from p l :: slices (p + 1) positions' l
  end.

End Lines.

(** ** The colours of characters *)

Module Colours.
(** A digit of a number written to the base 16 by [toString(16)]. *)
Definition hexDigit (c : ascii) : bool :=
  let n := nat_of_ascii c in isDigit c || ((97 <=? n) && (n <=? 102)).
Definition hexPair (s : string) : bool :=
  match s with
  | String a (String b EmptyString) => hexDigit a && hexDigit b
  | _ => false
  end.
(** The callback of [[r, g, b].map] in [ncolourToHex], on a number. *)
Definition component (x : number) : string :=
  let hex := JS.ceilToString16 (JS.mul x (JS.ofZ 255)) in
  if bool_decide (String.length hex = 1) then "0" +:+ hex else hex.
End Colours.

(** ** Documents up to their links *)

Module Unlinked.
(** A word, and a document, with the properties [link] and [targetURL]
    taken away. *)
Definition unlink (word : Word) : Word :=
  {| word_box := word_box word;
     word_content := word_content word;
     word_font := word_font word;
     properties := delete "targetURL" (delete "link" (properties word)) |}.
Definition unlinkDocument (doc : Document) : Document :=
  {| pages := (λ page, {| pageNumber := pageNumber page;
                          elements := LinkDetection.mapWords unlink <$> elements page;
                          page_box := page_box page |}) <$> pages doc;
     inputFile := inputFile doc |}.
End Unlinked.

(** ** Further sample data *)

Module Examples.

(** Two list objects that refer to each other. *)
Definition loop : list jsval := [Sample.listObject "1" ["2"]; Sample.listObject "2" ["1"]].

End Examples.

(* ================================================================== *)
(** * Part II. Properties                                              *)
(* ================================================================== *)

(** ** The digital-text backend: pages *)

Section GetPage.

Variable parseFloat toNumber : string → number.
Variable merge : list BoundingBox.t → BoundingBox.t.
Variable undefinedFont : Font.t.
Variable pathJoin : string → string → string.
Variable getAllElements : Document → list Element.
Variable tesseractRun abbyyRun : string → Promise Document.

#[local] Abbreviation getPage :=
  (Pdfminer.getPage parseFloat toNumber merge undefinedFont pathJoin getAllElements
     tesseractRun abbyyRun).
#[local] Abbreviation treatParagraphs := (Pdfminer.treatParagraphs parseFloat toNumber merge undefinedFont).
#[local] Abbreviation figureImages := (Pdfminer.figureImages parseFloat pathJoin).

(** The loop over the figures gathers the image elements and leaves the
    array of promises empty. *)
Lemma figures_loop (run : string → Promise Document) pageHeight imagsLocation figures elements :
  foldl (λ '(elements, imgOCRPromises) fig,
           let newImageElements :=
             Pdfminer.interpretImages parseFloat pathJoin fig imagsLocation pageHeight (JS.ofZ 1) in
           let elements := elements ++ (EImage <$> newImageElements) in
           let _dropped :=
             imgOCRPromises ++ ((λ imgElement, run (src imgElement)) <$> newImageElements) in
           (elements, imgOCRPromises))
        (elements, @nil (Promise Document)) figures
  = (elements ++ (EImage <$> (figures ≫= λ fig,
        Pdfminer.interpretImages parseFloat pathJoin fig imagsLocation pageHeight (JS.ofZ 1))), []).
Proof.
  revert elements. induction figures as [|fig figures IH]; intros elements; simpl.
  - by rewrite app_nil_r.
  - rewrite IH. by rewrite fmap_app, app_assoc.
Qed.

(** What [getPage] resolves with: the words of the text boxes followed by
    the image elements of the figures, and nothing else. *)
Lemma getPage_elements pageObj imagsLocation config words :
  treatParagraphs pageObj = Normal words →
  getPage pageObj imagsLocation config
  = Resolved {| pageNumber := parseFloat (Pdfminer.page_id pageObj);
                elements := words ++ (EImage <$> figureImages pageObj imagsLocation);
                page_box := Pdfminer.pageBBox parseFloat pageObj |}.
Proof.
  intros Hwords. unfold Pdfminer.getPage, Pdfminer.figureImages. rewrite Hwords.
  destruct (Pdfminer.figure pageObj) as [figures|]; simpl.
  - pose proof (figures_loop tesseractRun
      (BoundingBox.height (Pdfminer.pageBBox parseFloat pageObj)) imagsLocation figures words) as Hloop.
    simpl in Hloop. rewrite Hloop. simpl. by rewrite app_nil_r.
  - by rewrite !app_nil_r.
Qed.

End GetPage.

(** C1 (the code departs from the claim). A page with no text and one
    embedded image, whose OCR run resolves with a document of two words:
    [getPage] resolves with a page of one element, the image; the two words
    are not appended. The claim asks for 1 + 2 elements. *)
Theorem getPage_drops_ocr_elements :
  length (Sample.getAllElements Sample.ocrDocument) = 2
  ∧ Pdfminer.ocrRuns Sample.parseFloat Sample.pathJoin Sample.ocr Sample.ocr
      Sample.figurePage "imgs" Sample.config = [Resolved Sample.ocrDocument]
  ∧ ∃ page,
      Pdfminer.getPage Sample.parseFloat Sample.parseFloat Sample.merge Sample.undefinedFont
        Sample.pathJoin Sample.getAllElements Sample.ocr Sample.ocr
        Sample.figurePage "imgs" Sample.config = Resolved page
      ∧ length (elements page) = 1.
Proof.
  split; [reflexivity|]. split; [reflexivity|].
  eexists. split.
  - apply getPage_elements. reflexivity.
  - reflexivity.
Qed.

(** ** The digital-text backend: the run *)

Section Execute.

Variable parseFloat toNumber : string → number.
Variable merge : list BoundingBox.t → BoundingBox.t.
Variable undefinedFont : Font.t.
Variable pathJoin : string → string → string.
Variable getAllElements : Document → list Element.
Variable tesseractRun abbyyRun : string → Promise Document.
Variable getCommandLocationOnSystem : string → option string.
Variable repairPdf : string → string.
Variable getTemporaryDirectory : string.
Variable spawn : string → string → Pdfminer.ProcessRun.
Variable parseString : string → string + Pdfminer.PdfminerOutput.

#[local] Abbreviation getPage :=
  (Pdfminer.getPage parseFloat toNumber merge undefinedFont pathJoin getAllElements
     tesseractRun abbyyRun).
#[local] Abbreviation execute :=
  (Pdfminer.execute parseFloat toNumber merge undefinedFont pathJoin getAllElements
     tesseractRun abbyyRun getCommandLocationOnSystem repairPdf getTemporaryDirectory
     spawn parseString).
#[local] Abbreviation pdf2txtLocation := (Pdfminer.pdf2txtLocation getCommandLocationOnSystem).

(** C7 (amended). The run is rejected, with a reason that carries the exit
    code, iff pdf2txt was started and did not exit with code 0. When it
    exits with code 0, its XML output parses, holds a list of pages, and
    every page is read, the run resolves with the document of these pages
    for the input file. *)
Theorem execute_outcome pdfInputFile config :
  (∀ reason,
     execute pdfInputFile config = Rejected reason ↔
     ∃ location,
       pdf2txtLocation = Some location ∧ location ≠ EmptyString
       ∧ Pdfminer.exitCode (spawn location (repairPdf pdfInputFile)) ≠ Some 0%Z
       ∧ reason = "pdfminer return code is "
                  +:+ Pdfminer.showCode (Pdfminer.exitCode (spawn location (repairPdf pdfInputFile))))
  ∧ (∀ location obj pageObjs pages,
       pdf2txtLocation = Some location → location ≠ EmptyString →
       Pdfminer.exitCode (spawn location (repairPdf pdfInputFile)) = Some 0%Z →
       parseString (Pdfminer.xmlOutputFile (spawn location (repairPdf pdfInputFile))) = inr obj →
       Pdfminer.xml_pages obj ≫= Pdfminer.page = Some pageObjs →
       Promise_all ((λ pageObj, getPage pageObj getTemporaryDirectory config) <$> pageObjs)
         = Resolved pages →
       execute pdfInputFile config = Resolved {| pages := pages; inputFile := pdfInputFile |}).
Proof.
  unfold Pdfminer.execute. split.
  - intros reason. destruct pdf2txtLocation as [location|].
    + destruct location as [|c location].
      * split; [discriminate|]. intros (l & Hl & Hne & _). by simplify_eq.
      * case_bool_decide as Hcode.
        -- split.
           ++ unfold Pdfminer.parseXmlToObject.
              destruct (parseString _) as [err|obj]; [discriminate|].
              destruct (Pdfminer.xml_pages obj ≫= Pdfminer.page); [|discriminate].
              destruct (Promise_all _); discriminate.
           ++ intros (l & Hl & _ & Hne & _). by simplify_eq.
        -- split.
           ++ intros [= <-]. eexists. repeat split; done.
           ++ intros (l & Hl & _ & _ & ->). by simplify_eq.
    + split; [discriminate|]. intros (l & Hl & _). discriminate.
  - intros location obj pageObjs pages -> Hne Hcode Hparse Hpages Hall.
    destruct location as [|c location]; [done|].
    rewrite bool_decide_eq_true_2 by done.
    unfold Pdfminer.parseXmlToObject. rewrite Hparse, Hpages, Hall. done.
Qed.

End Execute.

(** The theorem at a run that succeeds. *)
Lemma execute_outcome_witness :
  Pdfminer.exitCode (Sample.spawn "/usr/bin/pdf2txt.py" (Sample.repairPdf "good.pdf")) = Some 0%Z
  ∧ ∃ page,
      Pdfminer.execute Sample.parseFloat Sample.parseFloat Sample.merge Sample.undefinedFont
        Sample.pathJoin Sample.getAllElements Sample.ocr Sample.ocr
        Sample.getCommandLocationOnSystem Sample.repairPdf "imgs" Sample.spawn Sample.parseString
        "good.pdf" Sample.config
      = Resolved {| pages := [page]; inputFile := "good.pdf" |}.
Proof.
  split; [reflexivity|]. eexists.
  apply (proj2 (execute_outcome Sample.parseFloat Sample.parseFloat Sample.merge
           Sample.undefinedFont Sample.pathJoin Sample.getAllElements Sample.ocr Sample.ocr
           Sample.getCommandLocationOnSystem Sample.repairPdf "imgs" Sample.spawn
           Sample.parseString "good.pdf" Sample.config)
         "/usr/bin/pdf2txt.py"
         {| Pdfminer.xml_pages := Some {| Pdfminer.page := Some [Sample.figurePage] |} |}
         [Sample.figurePage]);
    [reflexivity | discriminate | reflexivity | reflexivity | reflexivity | reflexivity].
Defined.

(** C7 as stated fails: pdf2txt exits with code 0 and leaves a file that is
    no XML; the run is neither resolved nor rejected. *)
Lemma execute_exit_0_not_resolved :
  Pdfminer.exitCode (Sample.spawn "/usr/bin/pdf2txt.py" (Sample.repairPdf "odd.pdf")) = Some 0%Z
  ∧ Pdfminer.execute Sample.parseFloat Sample.parseFloat Sample.merge Sample.undefinedFont
      Sample.pathJoin Sample.getAllElements Sample.ocr Sample.ocr
      Sample.getCommandLocationOnSystem Sample.repairPdf "imgs" Sample.spawn Sample.parseString
      "odd.pdf" Sample.config
    = Pending.
Proof. split; reflexivity. Qed.

(** ** The table of contents *)

Section TableOfContentsItems.

Import TableOfContents.
Variable toMarkdown : Element → string.

#[local] Abbreviation set_content := (TableOfContents.set_content toMarkdown).
#[local] Abbreviation contentToTOCItem := (TableOfContents.contentToTOCItem toMarkdown).

Lemma itemsAt_newItemArray l σ :
  itemsAt (newItemArray l σ).2 (newItemArray l σ).1 = l.
Proof. unfold itemsAt, newItemArray; simpl. by rewrite lookup_insert_eq. Qed.

Lemma elementsAt_newItemArray l σ r :
  elementsAt (newItemArray l σ).2 r = elementsAt σ r.
Proof. done. Qed.

Lemma elementsAt_push σ r element :
  elementsAt (push r element σ) r = elementsAt σ r ++ [element].
Proof. unfold elementsAt at 1, push; simpl. by rewrite lookup_insert_eq. Qed.

Lemma itemsAt_push σ r element r' :
  itemsAt (push r element σ) r' = itemsAt σ r'.
Proof. done. Qed.

Lemma elementsAt_assign σ r i element :
  elementsAt (assign r i element σ) r = <[i := element]> (elementsAt σ r).
Proof. unfold elementsAt at 1, assign; simpl. by rewrite lookup_insert_eq. Qed.

(** C8. Assigning to [content] an array of n elements makes [items] an
    array of n items, the i-th derived from the i-th element, and a second
    assignment of the same elements gives the same items. Changing the
    array that [content] returns in place (a [push], an assignment to an
    index) leaves [items] as it was, while [content] shows the change. *)
Theorem set_content_recomputes_items this value σ elems :
  elementArrays σ !! value = Some elems →
  let this' := (set_content this value σ).1 in
  let σ' := (set_content this value σ).2 in
  get_content this' = value
  ∧ elementsAt σ' (get_content this') = elems
  ∧ itemsAt σ' (get_items this') = contentToTOCItem <$> elems
  ∧ length (itemsAt σ' (get_items this')) = length elems
  ∧ (∀ i element, elems !! i = Some element →
       itemsAt σ' (get_items this') !! i = Some (contentToTOCItem element))
  ∧ (let again := set_content this' value σ' in
     itemsAt again.2 (get_items again.1) = itemsAt σ' (get_items this'))
  ∧ (∀ element,
       let σ'' := push (get_content this') element σ' in
       elementsAt σ'' (get_content this') = elems ++ [element]
       ∧ itemsAt σ'' (get_items this') = contentToTOCItem <$> elems)
  ∧ (∀ i element,
       let σ'' := assign (get_content this') i element σ' in
       elementsAt σ'' (get_content this') = <[i := element]> elems
       ∧ itemsAt σ'' (get_items this') = contentToTOCItem <$> elems).
Proof.
  intros Hvalue.
  assert (elementsAt σ value = elems) as Helems by (unfold elementsAt; by rewrite Hvalue).
  unfold TableOfContents.set_content, updateItems, get_content, get_items; simpl.
  rewrite Helems.
  set (items := contentToTOCItem <$> elems).
  assert (itemsAt (newItemArray items σ).2 (newItemArray items σ).1 = items) as Hitems
    by apply itemsAt_newItemArray.
  simpl in Hitems.
  repeat split.
  - done.
  - done.
  - rewrite Hitems. unfold items. by rewrite length_fmap.
  - intros i element Hi. rewrite Hitems. unfold items. by rewrite list_lookup_fmap, Hi.
  - unfold elementsAt at 1; simpl. fold (elementsAt σ value). rewrite Helems. fold items.
    rewrite Hitems. apply (itemsAt_newItemArray items (newItemArray items σ).2).
  - rewrite elementsAt_push. unfold elementsAt; simpl. by rewrite Hvalue.
  - done.
  - rewrite elementsAt_assign. unfold elementsAt; simpl. by rewrite Hvalue.
  - done.
Qed.

End TableOfContentsItems.

(** The theorem at a store with an array of two words. *)
Lemma set_content_recomputes_items_witness :
  TableOfContents.elementArrays Sample.tocStore !! 7%positive
    = Some [EWord (Sample.word "Intro"); EWord (Sample.word "Scope")]
  ∧ let this := (TableOfContents.create Sample.tocStore).1 in
    let σ := (TableOfContents.create Sample.tocStore).2 in
    let this' := (TableOfContents.set_content Sample.toMarkdown this 7%positive σ).1 in
    let σ' := (TableOfContents.set_content Sample.toMarkdown this 7%positive σ).2 in
    TableOfContents.itemsAt σ' (TableOfContents.get_items this')
    = [ {| TableOfContents.item_text := "Intro"; TableOfContents.item_pageNum := "0";
           TableOfContents.item_level := 0 |};
        {| TableOfContents.item_text := "Scope"; TableOfContents.item_pageNum := "0";
           TableOfContents.item_level := 0 |} ].
Proof.
  split; [reflexivity|].
  exact (proj1 (proj2 (proj2 (set_content_recomputes_items Sample.toMarkdown
    (TableOfContents.create Sample.tocStore).1 7%positive
    (TableOfContents.create Sample.tocStore).2
    [EWord (Sample.word "Intro"); EWord (Sample.word "Scope")] eq_refl)))).
Defined.

(** ** Line reconstruction: fake spaces *)

Section FakeSpaces.

Import Pdfminer.

Lemma foldl_flag {A} (P : A → bool) (l : list A) (init : bool) :
  foldl (λ flag x, if P x then true else flag) init l = init || existsb P l.
Proof.
  revert init. induction l as [|x l IH]; intros init; simpl.
  - by rewrite orb_false_r.
  - rewrite IH. destruct (P x), init; done.
Qed.

(** The positions that the two filters of [thereAreFakeSpaces] keep. *)
Lemma positions_spec (p : PdfminerText → bool) (l : list PdfminerText) (pos : nat) :
  pos ∈ (snd <$> List.filter (λ word, p word.1) (imap (λ index word, (word, index)) l))
  ↔ ∃ word, l !! pos = Some word ∧ p word = true.
Proof.
  rewrite list_elem_of_fmap. split.
  - intros ([word i] & -> & Hin). apply list_elem_of_In, filter_In in Hin as [Hin Hp].
    apply list_elem_of_In, elem_of_lookup_imap in Hin as (j & y & [= -> ->] & Hy). eauto.
  - intros (word & Hword & Hp). exists (word, pos). split; [done|].
    apply list_elem_of_In, filter_In. split; [|done].
    apply list_elem_of_In, elem_of_lookup_imap. eauto.
Qed.

Lemma thereAreFakeSpaces_spec line :
  thereAreFakeSpaces line = true ↔ fakeSpacePair line.
Proof.
  unfold thereAreFakeSpaces, fakeSpacePair.
  rewrite (foldl_flag (λ pos, bool_decide (pos + 1 ∈ _))). simpl.
  rewrite existsb_exists. split.
  - intros (pos & Hpos & Hnext).
    apply list_elem_of_In, positions_spec in Hpos as (a & Ha & Hpa).
    apply bool_decide_eq_true_1, positions_spec in Hnext as (b & Hb & Hpb).
    by exists pos, a, b.
  - intros (pos & a & b & Ha & Hb & Hpa & Hpb). exists pos. split.
    + apply list_elem_of_In, positions_spec. eauto.
    + apply bool_decide_eq_true_2, positions_spec. eauto.
Qed.

Lemma notAllowed_spec (char : PdfminerText) :
  bool_decide (charkey char ∈ Some <$> [zeroWidthSpace]) = notAllowed char.
Proof.
  unfold notAllowed. apply bool_decide_ext. simpl. rewrite list_elem_of_singleton. done.
Qed.

(** C2 (amended). An empty slot with no attributes is excluded as a fake
    space iff some empty slot with no attributes of the line is immediately
    followed by an empty slot that has attributes: then all the empty slots
    with no attributes of the line are excluded, and otherwise all of them
    are kept. *)
Theorem fake_spaces_exclusion line :
  (∀ slot, isFakeChar slot (thereAreFakeSpaces line) = true
           ↔ emptyWithNoAttr slot = true ∧ fakeSpacePair line)
  ∧ (fakeSpacePair line →
       keptSlots line
       = List.filter (λ char, negb (notAllowed char) && negb (emptyWithNoAttr char)) (text line))
  ∧ (¬ fakeSpacePair line →
       keptSlots line = List.filter (λ char, negb (notAllowed char)) (text line)).
Proof.
  pose proof (thereAreFakeSpaces_spec line) as Hspec.
  split; [|split].
  - intros slot. unfold isFakeChar, emptyWithNoAttr. rewrite <- Hspec.
    destruct (thereAreFakeSpaces line), (isUndefined (charkey slot)),
      (isUndefined (text_attr slot)); simpl; intuition congruence.
  - intros Hpair. apply Hspec in Hpair. unfold keptSlots. rewrite Hpair.
    apply filter_ext. intros char. rewrite notAllowed_spec.
    unfold isFakeChar, emptyWithNoAttr.
    by destruct (isUndefined (charkey char)), (isUndefined (text_attr char)).
  - intros Hpair. rewrite <- Hspec in Hpair. apply not_true_is_false in Hpair.
    unfold keptSlots. rewrite Hpair.
    apply filter_ext. intros char. rewrite notAllowed_spec.
    unfold isFakeChar. simpl. by rewrite andb_true_r.
Qed.

End FakeSpaces.

(** The theorem at a line with a fake space, and at a line with none. *)
Lemma fake_spaces_exclusion_witness :
  Pdfminer.fakeSpacePair Sample.spacedLine
  ∧ Pdfminer.keptSlots Sample.spacedLine
    = [Sample.glyph "a"; Sample.glyph "b"; Sample.spaceGlyph; Sample.glyph "c"]
  ∧ ¬ Pdfminer.fakeSpacePair Sample.plainLine
  ∧ Pdfminer.keptSlots Sample.plainLine
    = [Sample.glyph "a"; Sample.layoutSpace; Sample.glyph "b"].
Proof.
  assert (Pdfminer.fakeSpacePair Sample.spacedLine) as Hpair.
  { exists 3, Sample.layoutSpace, Sample.spaceGlyph. repeat split; reflexivity. }
  assert (¬ Pdfminer.fakeSpacePair Sample.plainLine) as Hnone.
  { intros (pos & a & b & Ha & Hb & Hpa & Hpb).
    destruct pos as [|[|[|pos]]]; simpl in *; simplify_eq; discriminate. }
  split; [exact Hpair|]. split.
  - exact (proj1 (proj2 (fake_spaces_exclusion Sample.spacedLine)) Hpair).
  - split; [exact Hnone|].
    exact (proj2 (proj2 (fake_spaces_exclusion Sample.plainLine)) Hnone).
Defined.

(** C2 as stated fails. In the line [a, layout space, b, layout space,
    space glyph, c] the slot at position 1 is empty with no attributes and
    is followed by the glyph of b, not by an empty slot with attributes;
    yet it is excluded, and the line yields the words ab and c. *)
Lemma layout_space_excluded_without_follower :
  Pdfminer.text Sample.spacedLine !! 1 = Some Sample.layoutSpace
  ∧ Pdfminer.text Sample.spacedLine !! 2 = Some (Sample.glyph "b")
  ∧ Pdfminer.emptyWithAttr (Sample.glyph "b") = false
  ∧ Pdfminer.keptSlots Sample.spacedLine
    = [Sample.glyph "a"; Sample.glyph "b"; Sample.spaceGlyph; Sample.glyph "c"]
  ∧ Sample.wordsOf Sample.spacedLine = Normal ["ab"; "c"].
Proof. repeat split; reflexivity. Qed.

(** ** Link detection: the words of a page *)

Section WordLinks.

Import LinkDetection.
Variable getPercentageOfInclusion : BoundingBox.t → BoundingBox.t → number.

#[local] Abbreviation exceeds := (LinkDetection.exceeds getPercentageOfInclusion).
#[local] Abbreviation matchAnnotation := (LinkDetection.matchAnnotation getPercentageOfInclusion).
#[local] Abbreviation processWord := (LinkDetection.processWord getPercentageOfInclusion).

Lemma sameWord_exceeds a b l : sameWord a b → exceeds a l = exceeds b l.
Proof. intros [Hbox _]. unfold LinkDetection.exceeds. by rewrite Hbox. Qed.

Lemma sameWord_buildLinkMD a b l : sameWord a b → buildLinkMD a l = buildLinkMD b l.
Proof. intros [_ Hcontent]. unfold buildLinkMD, wordToString. by rewrite Hcontent. Qed.

Lemma matchAnnotation_sameWord word l : sameWord (matchAnnotation word l) word.
Proof.
  unfold LinkDetection.matchAnnotation. destruct (exceeds word l); [|done].
  by destruct (buildLinkMD word l).
Qed.

Lemma foldl_matchAnnotation_sameWord links word :
  sameWord (foldl matchAnnotation word links) word.
Proof.
  revert word. induction links as [|l links IH]; intros word; simpl; [done|].
  destruct (IH (matchAnnotation word l)) as [Hbox Hcontent].
  destruct (matchAnnotation_sameWord word l) as [Hbox' Hcontent'].
  split; congruence.
Qed.

(** An annotation that exceeds the threshold overwrites both properties,
    whatever the annotations before it did. *)
Lemma matchAnnotation_overwrites word l :
  exceeds word l = true →
  properties (matchAnnotation word l) !! "link" = Some (JString (buildLinkMD word l).1)
  ∧ properties (matchAnnotation word l) !! "targetURL" = Some (buildLinkMD word l).2.
Proof.
  intros Hl. unfold LinkDetection.matchAnnotation. rewrite Hl.
  destruct (buildLinkMD word l) as [mdLink targetURL]. simpl.
  by rewrite lookup_insert_ne, !lookup_insert_eq.
Qed.

Lemma matchAnnotation_skips word l : exceeds word l = false → matchAnnotation word l = word.
Proof. intros Hl. unfold LinkDetection.matchAnnotation. by rewrite Hl. Qed.

Lemma foldl_matchAnnotation_skips links word :
  (∀ l, l ∈ links → exceeds word l = false) → foldl matchAnnotation word links = word.
Proof.
  induction links as [|l links IH]; intros Hlinks; simpl; [done|].
  rewrite matchAnnotation_skips by (apply Hlinks; left).
  apply IH. intros l' Hl'. apply Hlinks. by right.
Qed.

Lemma buildLinkMD_truthy word l : truthy (JString (buildLinkMD word l).1) = true.
Proof. done. Qed.

(** C4. The annotations of the page are tried in the order of the list and
    none ends the loop: an annotation whose ratio exceeds 0.7 overwrites
    [link] and [targetURL] whatever was matched before it, so the
    properties the word ends with are those of the last annotation of the
    list that exceeds the threshold; the textual fallback does not change
    them. With no such annotation the loop leaves the word as it was. *)
Theorem geometric_matching_last_wins word links :
  (∀ before l,
     links = before ++ [l] → exceeds word l = true →
     properties (foldl matchAnnotation word links) !! "link"
       = Some (JString (buildLinkMD word l).1)
     ∧ properties (foldl matchAnnotation word links) !! "targetURL"
       = Some (buildLinkMD word l).2)
  ∧ (∀ before l after,
       links = before ++ l :: after → exceeds word l = true →
       (∀ l', l' ∈ after → exceeds word l' = false) →
       properties (processWord links word) !! "link" = Some (JString (buildLinkMD word l).1)
       ∧ properties (processWord links word) !! "targetURL" = Some (buildLinkMD word l).2
       ∧ processWord links word = foldl matchAnnotation word links)
  ∧ ((∀ l, l ∈ links → exceeds word l = false) → foldl matchAnnotation word links = word).
Proof.
  assert (∀ before l after,
    exceeds word l = true → (∀ l', l' ∈ after → exceeds word l' = false) →
    properties (foldl matchAnnotation word (before ++ l :: after)) !! "link"
      = Some (JString (buildLinkMD word l).1)
    ∧ properties (foldl matchAnnotation word (before ++ l :: after)) !! "targetURL"
      = Some (buildLinkMD word l).2) as Hlast.
  { intros before l after Hl Hafter. rewrite foldl_app. cbn [foldl].
    pose proof (foldl_matchAnnotation_sameWord before word) as Hsame.
    set (word' := foldl matchAnnotation word before) in *.
    rewrite foldl_matchAnnotation_skips.
    - rewrite <- (sameWord_buildLinkMD _ _ l Hsame).
      apply matchAnnotation_overwrites. by rewrite (sameWord_exceeds _ _ l Hsame).
    - intros l' Hl'. rewrite <- (Hafter l' Hl'). apply sameWord_exceeds.
      destruct Hsame, (matchAnnotation_sameWord word' l). split; congruence. }
  split; [|split].
  - intros before l -> Hl. apply Hlast; [done|]. by intros l' ?%elem_of_nil.
  - intros before l after -> Hl Hafter.
    destruct (Hlast before l after Hl Hafter) as [Hlink Htarget].
    assert (processWord (before ++ l :: after) word
            = foldl matchAnnotation word (before ++ l :: after)) as ->.
    { unfold LinkDetection.processWord, hasLink. by rewrite Hlink. }
    done.
  - apply foldl_matchAnnotation_skips.
Qed.

(** C5. The textual fallback leaves a word alone that carries a link after
    the geometric matching. A word that carries no [link] property then
    gets the link of its own text when the text matches the pattern of
    URLs, else the mailto link of its text when the text matches the
    pattern of e-mail addresses, and else is left with no [link] property.
    A word that comes with no link, or with a link that is a non-empty
    string, is in one of the two cases after the geometric matching. *)
Theorem textual_fallback word links :
  let word' := foldl matchAnnotation word links in
  let text := wordToString word' in
  (hasLink word' = true → processWord links word = word')
  ∧ (properties word' !! "link" = None →
       (RegExp.matches linkRegexp text = true →
          processWord links word = matchTextualLinks word'
          ∧ properties (processWord links word) !! "link"
            = Some (JString ("[" +:+ text +:+ "](" +:+ text +:+ ")"))
          ∧ properties (processWord links word) !! "targetURL" = Some (JString text))
       ∧ (RegExp.matches linkRegexp text = false → RegExp.matches mailRegexp text = true →
            processWord links word = matchTextualLinks word'
            ∧ properties (processWord links word) !! "link"
              = Some (JString ("[" +:+ text +:+ "](mailto:" +:+ text +:+ ")"))
            ∧ properties (processWord links word) !! "targetURL"
              = Some (JString ("mailto:" +:+ text)))
       ∧ (RegExp.matches linkRegexp text = false → RegExp.matches mailRegexp text = false →
            processWord links word = word'
            ∧ properties (processWord links word) !! "link" = None))
  ∧ (properties word !! "link" = None ∨ hasLink word = true →
       properties word' !! "link" = None ∨ hasLink word' = true).
Proof.
  intros word' text. split; [|split].
  - intros Hlink. unfold LinkDetection.processWord. fold word'. by rewrite Hlink.
  - intros Hnone.
    assert (processWord links word = matchTextualLinks word') as Hrun.
    { unfold LinkDetection.processWord. fold word'. unfold hasLink. by rewrite Hnone. }
    rewrite Hrun. unfold matchTextualLinks. fold text.
    split; [|split].
    + intros ->. simpl. by rewrite lookup_insert_ne, !lookup_insert_eq.
    + intros -> ->. simpl. by rewrite lookup_insert_ne, !lookup_insert_eq.
    + by intros -> ->.
  - subst word'. clear text. revert word.
    induction links as [|l links IH]; intros word Hword; simpl; [done|].
    apply IH. unfold LinkDetection.matchAnnotation.
    destruct (exceeds word l); [|done].
    destruct (buildLinkMD word l) as [mdLink targetURL] eqn:Hbuild. right.
    unfold hasLink; simpl. rewrite lookup_insert_ne, lookup_insert_eq by done.
    by inversion Hbuild.
Qed.

End WordLinks.

(** The theorem at a word covered by two annotations of its page, and not
    by the third. *)
Lemma geometric_matching_last_wins_witness :
  LinkDetection.exceeds Sample.getPercentageOfInclusion Sample.linkedWord Sample.secondLink = true
  ∧ properties (LinkDetection.processWord Sample.getPercentageOfInclusion
                  [Sample.firstLink; Sample.secondLink; Sample.farLink] Sample.linkedWord)
      !! "link"
    = Some (JString (LinkDetection.buildLinkMD Sample.linkedWord Sample.secondLink).1).
Proof.
  split; [reflexivity|].
  refine (proj1 (proj1 (proj2 (geometric_matching_last_wins Sample.getPercentageOfInclusion
    Sample.linkedWord [Sample.firstLink; Sample.secondLink; Sample.farLink]))
    [Sample.firstLink] Sample.secondLink [Sample.farLink] eq_refl eq_refl _)).
  intros l' Hl'. apply list_elem_of_singleton in Hl'. subst l'. reflexivity.
Defined.

(** The theorem at a word with no annotation whose text is an URL. *)
Lemma textual_fallback_witness :
  properties (Sample.word "https://example.com") !! "link" = None
  ∧ RegExp.matches LinkDetection.linkRegexp "https://example.com" = true
  ∧ properties (LinkDetection.processWord Sample.getPercentageOfInclusion []
                  (Sample.word "https://example.com")) !! "link"
    = Some (JString "[https://example.com](https://example.com)").
Proof.
  split; [reflexivity|]. split; [reflexivity|].
  exact (proj1 (proj2 (proj1 (proj1 (proj2 (textual_fallback Sample.getPercentageOfInclusion
    (Sample.word "https://example.com") [])) eq_refl) eq_refl))).
Defined.

(** ** Line reconstruction: the dominant font *)

Section MostCommonFont.

Import Pdfminer.
Variable undefinedFont : Font.t.

#[local] Abbreviation getMostCommonFont := (Pdfminer.getMostCommonFont undefinedFont).

Implicit Types (f g h : Font.t) (fonts : list Font.t).

Lemma occurrences_app f fonts1 fonts2 :
  occurrences f (fonts1 ++ fonts2) = occurrences f fonts1 + occurrences f fonts2.
Proof. unfold occurrences. by rewrite filter_app, length_app. Qed.

Lemma occurrences_cons f g fonts :
  occurrences f (g :: fonts) = (if decide (g = f) then 1 else 0) + occurrences f fonts.
Proof. unfold occurrences. rewrite filter_cons. by case_decide. Qed.

Lemma occurrences_pos f fonts : f ∈ fonts ↔ 0 < occurrences f fonts.
Proof.
  unfold occurrences. split.
  - intros Hf. assert (f ∈ filter (λ g, g = f) fonts) as Hin by by apply list_elem_of_filter.
    destruct (filter _ fonts); [by apply elem_of_nil in Hin | simpl; lia].
  - intros Hlen. destruct (filter (λ g, g = f) fonts) as [|g rest] eqn:Hfilter; [simpl in Hlen; lia|].
    assert (g ∈ filter (λ g, g = f) fonts) as Hin by (rewrite Hfilter; left).
    apply list_elem_of_filter in Hin as [-> Hin]. done.
Qed.

Lemma elem_of_firsts f fonts : f ∈ firsts fonts ↔ f ∈ fonts.
Proof.
  induction fonts as [|g fonts IH]; simpl; [done|].
  rewrite !elem_of_cons, list_elem_of_filter, IH.
  destruct (decide (f = g)); tauto.
Qed.

Lemma filter_all {A} (P : A → Prop) `{!∀ x, Decision (P x)} (l : list A) :
  (∀ x, x ∈ l → P x) → filter P l = l.
Proof.
  induction l as [|x l IH]; intros Hl; [done|].
  rewrite filter_cons_True by (apply Hl; left).
  f_equal. apply IH. intros y Hy. apply Hl. by right.
Qed.

Lemma firsts_app fonts1 fonts2 :
  firsts (fonts1 ++ fonts2) = firsts fonts1 ++ filter (λ g, g ∉ fonts1) (firsts fonts2).
Proof.
  induction fonts1 as [|f fonts1 IH]; simpl.
  - symmetry. apply filter_all. intros g _. apply not_elem_of_nil.
  - rewrite IH, filter_app. f_equal. f_equal.
    rewrite list_filter_filter. apply list_filter_iff. intros g.
    rewrite not_elem_of_cons. tauto.
Qed.

Lemma firsts_snoc fonts f :
  firsts (fonts ++ [f]) = if decide (f ∈ fonts) then firsts fonts else firsts fonts ++ [f].
Proof.
  rewrite firsts_app. simpl. rewrite filter_nil, filter_cons.
  case_decide as Hf; case_decide as Hf'; try done.
  by rewrite app_nil_r.
Qed.

Lemma NoDup_firsts fonts : NoDup (firsts fonts).
Proof.
  induction fonts as [|f fonts IH]; simpl; constructor.
  - rewrite list_elem_of_filter. tauto.
  - by apply NoDup_filter.
Qed.

(** The baskets after the loop: one basket per font, in the order of the
    first occurrences, with as many members as the font has occurrences. *)
Lemma baskets_spec fonts :
  foldl addToBaskets [] fonts = (λ f, replicate (occurrences f fonts) f) <$> firsts fonts.
Proof.
  induction fonts as [|f fonts IH] using rev_ind; [done|].
  rewrite foldl_app. simpl. rewrite IH. clear IH. unfold addToBaskets.
  assert (∀ g, g ∈ firsts fonts →
            basketMatches (replicate (occurrences g fonts) g) f = bool_decide (g = f)) as Hmatch.
  { intros g Hg. apply (proj1 (elem_of_firsts _ _)), (proj1 (occurrences_pos _ _)) in Hg.
    destruct (occurrences g fonts); [lia|]. done. }
  assert (((λ basket, if basketMatches basket f then basket ++ [f] else basket)
             <$> ((λ g, replicate (occurrences g fonts) g) <$> firsts fonts))
          = (λ g, replicate (occurrences g (fonts ++ [f])) g) <$> firsts fonts) as ->.
  { rewrite <- list_fmap_compose. apply list_fmap_ext. intros i g Hg%list_elem_of_lookup_2. simpl.
    rewrite (Hmatch g Hg), occurrences_app, occurrences_cons.
    change (occurrences g []) with 0.
    case_bool_decide as Hgf.
    - subst g. rewrite decide_True by done.
      replace (occurrences f fonts + (1 + 0)) with (S (occurrences f fonts)) by lia.
      by rewrite replicate_S_end.
    - rewrite decide_False by done. by rewrite !Nat.add_0_r. }
  assert (existsb (λ basket, basketMatches basket f)
            ((λ g, replicate (occurrences g fonts) g) <$> firsts fonts)
          = bool_decide (f ∈ fonts)) as ->.
  { apply eq_true_iff_eq. rewrite existsb_exists, bool_decide_eq_true. split.
    - intros (basket & Hbasket & Hf).
      apply list_elem_of_In, list_elem_of_fmap in Hbasket as (g & -> & Hg).
      rewrite (Hmatch g Hg) in Hf. apply bool_decide_eq_true in Hf. subst g.
      by apply elem_of_firsts.
    - intros Hf. exists (replicate (occurrences f fonts) f). split.
      + apply list_elem_of_In, list_elem_of_fmap. exists f. by rewrite elem_of_firsts.
      + rewrite Hmatch by by apply elem_of_firsts. by apply bool_decide_eq_true. }
  rewrite firsts_snoc. case_bool_decide as Hf.
  - by rewrite decide_True.
  - rewrite decide_False by done. rewrite fmap_app. simpl. f_equal.
    rewrite occurrences_app, occurrences_cons, decide_True by done.
    change (occurrences f []) with 0.
    assert (occurrences f fonts = 0) as ->.
    { destruct (occurrences f fonts) eqn:Hocc; [done|].
      exfalso. apply Hf, occurrences_pos. lia. }
    done.
Qed.

(** The first member of the sorted baskets: the first of the longest
    baskets. *)
Lemma head_insertSorted {A} (cmp : A → A → Z) x l :
  head (JS.insertSorted cmp x l)
  = Some (match l with
          | [] => x
          | y :: _ => if (cmp x y <=? 0)%Z then x else y
          end).
Proof. destruct l as [|y l]; simpl; [done|]. by destruct (cmp x y <=? 0)%Z. Qed.

Lemma sort_head {A} (baskets : list (list A)) :
  baskets ≠ [] →
  ∃ before basket after,
    baskets = before ++ basket :: after
    ∧ head (JS.sort (λ a b, Z.of_nat (length b) - Z.of_nat (length a))%Z baskets) = Some basket
    ∧ (∀ c, c ∈ before → length c < length basket)
    ∧ (∀ c, c ∈ after → length c ≤ length basket).
Proof.
  set (cmp := λ a b : list A, (Z.of_nat (length b) - Z.of_nat (length a))%Z).
  induction baskets as [|x baskets IH]; [done|]. intros _.
  change (JS.sort cmp (x :: baskets)) with (JS.insertSorted cmp x (JS.sort cmp baskets)).
  rewrite head_insertSorted.
  destruct (decide (baskets = [])) as [->|Hbaskets].
  - exists [], x, []. repeat split; try done; by intros c ?%elem_of_nil.
  - destruct (IH Hbaskets) as (before & basket & after & Heq & Hhead & Hbefore & Hafter).
    destruct (JS.sort cmp baskets) as [|z sorted]; [done|].
    simpl in Hhead. injection Hhead as ->. unfold cmp at 1.
    destruct (Z.leb_spec (Z.of_nat (length basket) - Z.of_nat (length x)) 0) as [Hle|Hgt].
    + exists [], x, baskets. repeat split; try done.
      * by intros c ?%elem_of_nil.
      * intros c Hc. rewrite Heq in Hc.
        apply elem_of_app in Hc as [Hc|Hc].
        -- apply Hbefore in Hc. lia.
        -- apply elem_of_cons in Hc as [->|Hc]; [lia|]. apply Hafter in Hc. lia.
    + exists (x :: before), basket, after. rewrite Heq. repeat split; try done.
      intros c [->|Hc]%elem_of_cons; [lia|]. by apply Hbefore.
Qed.

Lemma NoDup_split_unique {A} (l1 l2 k1 k2 : list A) x :
  NoDup (l1 ++ x :: l2) → l1 ++ x :: l2 = k1 ++ x :: k2 → l1 = k1.
Proof.
  revert k1. induction l1 as [|a l1 IH]; intros k1 Hnodup Heq.
  - destruct k1 as [|b k1]; [done|]. simpl in *. injection Heq as <- Heq.
    apply NoDup_cons in Hnodup as [Hx _]. exfalso. apply Hx. rewrite Heq.
    apply elem_of_app. right. left.
  - destruct k1 as [|b k1]; simpl in *.
    + injection Heq as -> Heq. apply NoDup_cons in Hnodup as [Hx _].
      exfalso. apply Hx. apply elem_of_app. right. left.
    + injection Heq as <- Heq. apply NoDup_cons in Hnodup as [_ Hnodup].
      f_equal. by apply IH.
Qed.

(** The font returned for a sequence that is not empty: the first font of
    the sequence among those that occur most often. *)
Lemma getMostCommonFont_first_max fonts :
  fonts ≠ [] →
  ∃ before after,
    fonts = before ++ (getMostCommonFont fonts) :: after
    ∧ (getMostCommonFont fonts ∉ before)
    ∧ (∀ g, occurrences g fonts ≤ occurrences (getMostCommonFont fonts) fonts)
    ∧ (∀ g, g ∈ before → occurrences g fonts < occurrences (getMostCommonFont fonts) fonts).
Proof.
  intros Hfonts.
  set (basketOf := λ f, replicate (occurrences f fonts) f).
  destruct (sort_head (basketOf <$> firsts fonts))
    as (bs1 & basket & bs2 & Heq & Hhead & Hbefore & Hafter).
  { destruct fonts; [done|]. done. }
  apply fmap_app_inv in Heq as (fs1 & fs' & -> & Heq & Hfirsts).
  symmetry in Heq. apply fmap_cons_inv in Heq as (f & fs2 & -> & -> & ->).
  assert (f ∈ fonts) as Hf.
  { apply elem_of_firsts. rewrite Hfirsts. apply elem_of_app. right. left. }
  assert (getMostCommonFont fonts = f) as ->.
  { unfold Pdfminer.getMostCommonFont. rewrite baskets_spec. fold basketOf.
    destruct (JS.sort _ _) as [|first sorted]; [done|].
    simpl in Hhead. injection Hhead as ->. unfold basketOf.
    apply (proj1 (occurrences_pos _ _)) in Hf.
    destruct (occurrences f fonts); [lia|]. done. }
  assert (∀ g, length (basketOf g) = occurrences g fonts) as Hlen
    by (intros g; apply length_replicate).
  apply list_elem_of_split_l in Hf as (before & after & Hsplit & Hnotin).
  exists before, after. repeat split; try done.
  - intros g. destruct (decide (g ∈ fonts)) as [Hg|Hg].
    + apply elem_of_firsts in Hg. rewrite Hfirsts in Hg.
      apply elem_of_app in Hg as [Hg|Hg].
      * specialize (Hbefore (basketOf g)). rewrite !Hlen in Hbefore.
        apply Nat.lt_le_incl, Hbefore, list_elem_of_fmap. eauto.
      * apply elem_of_cons in Hg as [->|Hg]; [done|].
        specialize (Hafter (basketOf g)). rewrite !Hlen in Hafter.
        apply Hafter, list_elem_of_fmap. eauto.
    + assert (occurrences g fonts = 0) as ->; [|lia].
      destruct (occurrences g fonts) eqn:Hg'; [done|].
      exfalso. apply Hg, occurrences_pos. lia.
  - intros g Hg.
    assert (fs1 = firsts before) as ->.
    { apply (NoDup_split_unique _ fs2 _ (filter (λ g, g ∉ before) (filter (λ g, g ≠ f) (firsts after))) f).
      - rewrite <- Hfirsts. apply NoDup_firsts.
      - rewrite <- Hfirsts. rewrite Hsplit at 1. rewrite firsts_app. simpl.
        rewrite filter_cons, decide_True by done. done. }
    specialize (Hbefore (basketOf g)). rewrite !Hlen in Hbefore.
    apply Hbefore, list_elem_of_fmap. exists g. by rewrite elem_of_firsts.
Qed.

(** C3. For a sequence of fonts that is not empty, the font returned is
    the first font of the sequence among those that occur most often: it
    is a font of the sequence, no font occurs more often, and every font
    that occurs before its first occurrence occurs less often. So a font
    that occurs more often than every other font is returned, and of two
    fonts that occur equally often, and more often than the others, the
    one that occurs first is returned. For the empty sequence the
    undefined font is returned. *)
Theorem most_common_font fonts :
  (fonts = [] → getMostCommonFont fonts = undefinedFont)
  ∧ (fonts ≠ [] →
       ∃ before after,
         fonts = before ++ (getMostCommonFont fonts) :: after
         ∧ (getMostCommonFont fonts ∉ before)
         ∧ (∀ g, occurrences g fonts ≤ occurrences (getMostCommonFont fonts) fonts)
         ∧ (∀ g, g ∈ before →
              occurrences g fonts < occurrences (getMostCommonFont fonts) fonts))
  ∧ (∀ f, (∀ g, g ≠ f → occurrences g fonts < occurrences f fonts) →
          getMostCommonFont fonts = f)
  ∧ (∀ f g before after,
       fonts = before ++ f :: after → g ∉ before →
       occurrences f fonts = occurrences g fonts →
       (∀ h, h ≠ f → h ≠ g → occurrences h fonts < occurrences f fonts) →
       getMostCommonFont fonts = f).
Proof.
  split; [by intros ->|]. split; [apply getMostCommonFont_first_max|]. split.
  - intros f Hf.
    assert (fonts ≠ []) as Hfonts.
    { intros ->. specialize (Hf (Font.make "x" (Font.size f)
        (match Font.weight f with Font.medium => Font.bold | Font.bold => Font.medium end)
        false false "")).
      unfold occurrences in Hf. simpl in Hf. apply Nat.nlt_0_r in Hf; [done|].
      destruct f as [? ? []]; intros [=]. }
    destruct (getMostCommonFont_first_max fonts Hfonts) as (_ & _ & _ & _ & Hmax & _).
    destruct (decide (getMostCommonFont fonts = f)) as [|Hne]; [done|].
    specialize (Hf _ Hne). specialize (Hmax f). lia.
  - intros f g before after Hsplit Hg Htie Hothers.
    assert (fonts ≠ []) as Hfonts by (rewrite Hsplit; by destruct before).
    destruct (getMostCommonFont_first_max fonts Hfonts)
      as (before' & after' & Hsplit' & Hnotin & Hmax & Hless).
    set (r := getMostCommonFont fonts) in *.
    destruct (decide (r = f)) as [|Hrf]; [done|].
    destruct (decide (r = g)) as [Hrg|Hrg].
    + (* the font returned would be g: neither font occurs before the place
         of the other, so the two places are the same *)
      exfalso. subst g.
      assert (fonts !! length before = Some f) as Hatf
        by (rewrite Hsplit; apply list_lookup_middle; done).
      assert (fonts !! length before' = Some r) as Hatr
        by (rewrite Hsplit'; apply list_lookup_middle; done).
      destruct (Nat.lt_trichotomy (length before') (length before)) as [Hlt|[Heq|Hlt]].
      * apply Hg. rewrite Hsplit, lookup_app_l in Hatr by done.
        by apply list_elem_of_lookup_2 in Hatr.
      * rewrite Heq in Hatr. congruence.
      * rewrite Hsplit', lookup_app_l in Hatf by done.
        apply list_elem_of_lookup_2, Hless in Hatf. lia.
    + specialize (Hothers r Hrf Hrg). specialize (Hmax f). lia.
Qed.

End MostCommonFont.

(** The theorem at a sequence in which two fonts occur twice each. *)
Lemma most_common_font_witness :
  Sample.tiedFonts = [] ++ Sample.arial :: [Sample.times; Sample.times; Sample.courier; Sample.arial]
  ∧ Pdfminer.occurrences Sample.arial Sample.tiedFonts
    = Pdfminer.occurrences Sample.times Sample.tiedFonts
  ∧ Pdfminer.getMostCommonFont Sample.undefinedFont Sample.tiedFonts = Sample.arial
  ∧ Pdfminer.getMostCommonFont Sample.undefinedFont [] = Sample.undefinedFont.
Proof.
  split; [reflexivity|]. split; [reflexivity|]. split.
  - refine (proj2 (proj2 (proj2 (most_common_font Sample.undefinedFont Sample.tiedFonts)))
      Sample.arial Sample.times [] [Sample.times; Sample.times; Sample.courier; Sample.arial]
      eq_refl _ eq_refl _).
    + apply not_elem_of_nil.
    + intros h Harial Htimes. unfold Pdfminer.occurrences, Sample.tiedFonts.
      rewrite !filter_cons, filter_nil.
      repeat case_decide; simplify_eq; simpl; try lia; try done.
  - exact (proj1 (most_common_font Sample.undefinedFont []) eq_refl).
Defined.

(** ** The server manager: names of modules *)

Section ModuleNames.

Import ServerManager.
#[local] Arguments String.append !_ _ / : simpl nomatch.
#[local] Arguments Ascii.ascii_dec : simpl never.

Implicit Types (c d : ascii) (s t w : string) (ws : list string).

(** Characters. *)
Lemma isLower_not_isUpper c : isLower c = true → isUpper c = false.
Proof.
  unfold isLower, isUpper. intros H.
  apply andb_true_iff in H as [H1 H2]. apply Nat.leb_le in H1.
  apply andb_false_iff. right. apply Nat.leb_gt. lia.
Qed.
Lemma isUpper_not_isLower c : isUpper c = true → isLower c = false.
Proof.
  unfold isLower, isUpper. intros H.
  apply andb_true_iff in H as [H1 H2]. apply Nat.leb_le in H2.
  apply andb_false_iff. left. apply Nat.leb_gt. lia.
Qed.
Lemma lowerChar_isLower c : isLower c = true → lowerChar c = c.
Proof. intros H. unfold lowerChar. by rewrite isLower_not_isUpper. Qed.
Lemma isLower_lowerChar c : isUpper c = true → isLower (lowerChar c) = true.
Proof.
  intros H. unfold lowerChar. rewrite H. unfold isUpper, isLower in *.
  apply andb_true_iff in H as [H1%Nat.leb_le H2%Nat.leb_le].
  rewrite nat_ascii_embedding by lia.
  apply andb_true_iff. split; apply Nat.leb_le; lia.
Qed.
Lemma upperChar_lowerChar c : isUpper c = true → upperChar (lowerChar c) = c.
Proof.
  intros H. unfold upperChar. rewrite isLower_lowerChar by done.
  unfold lowerChar. rewrite H. unfold isUpper in H.
  apply andb_true_iff in H as [H1%Nat.leb_le H2%Nat.leb_le].
  rewrite nat_ascii_embedding by lia.
  replace (nat_of_ascii c + 32 - 32) with (nat_of_ascii c) by lia.
  apply ascii_nat_embedding.
Qed.
Lemma isLower_not_dash c : isLower c = true → c ≠ "-"%char.
Proof. intros H ->. done. Qed.

(** Words of small letters. *)
Lemma toLowerCase_allLower s : allLower s = true → toLowerCase s = s.
Proof.
  induction s as [|c s IH]; simpl; [done|].
  intros [Hc Hs]%andb_true_iff. by rewrite lowerChar_isLower, IH.
Qed.
Lemma allLower_app s t : allLower (s +:+ t) = allLower s && allLower t.
Proof. induction s as [|c s IH]; simpl; [done|]. by rewrite IH, andb_assoc. Qed.


Lemma str_app_nil_r s : s +:+ EmptyString = s.
Proof. induction s as [|c s IH]; simpl; [done|]. by rewrite IH. Qed.
Lemma str_app_assoc s t u : (s +:+ t) +:+ u = s +:+ (t +:+ u).
Proof. induction s as [|c s IH]; simpl; [done|]. by rewrite IH. Qed.

Lemma join_app ws1 ws2 : JS.join (ws1 ++ ws2) = JS.join ws1 +:+ JS.join ws2.
Proof.
  induction ws1 as [|w ws1 IH]; [done|].
  change (JS.join ((w :: ws1) ++ ws2)) with (w +:+ JS.join (ws1 ++ ws2)).
  change (JS.join (w :: ws1)) with (w +:+ JS.join ws1).
  by rewrite IH, str_app_assoc.
Qed.

Lemma dashed_dashTail w ws : dashed (w :: ws) = w +:+ dashTail ws.
Proof.
  revert w. induction ws as [|w' ws IH]; intros w.
  - simpl. by rewrite str_app_nil_r.
  - change (dashed (w :: w' :: ws)) with (w +:+ "-" +:+ dashed (w' :: ws)). by rewrite IH.
Qed.
Lemma dashTail_app ws1 ws2 : dashTail (ws1 ++ ws2) = dashTail ws1 +:+ dashTail ws2.
Proof.
  induction ws1 as [|w ws1 IH]; [done|].
  simpl. by rewrite IH, str_app_assoc.
Qed.

(** Step 1: the dashes of [insertDashes]. *)
Lemma insertDashes_not_lower c s :
  isLower c = false → insertDashes (String c s) = String c (insertDashes s).
Proof. intros Hc. destruct s as [|d s]; simpl; [done|]. by rewrite Hc. Qed.

Lemma insertDashes_allLower s : allLower s = true → insertDashes s = s.
Proof.
  induction s as [|c s IH]; [done|].
  intros [Hc Hs]%andb_true_iff. destruct s as [|d s]; [done|].
  pose proof Hs as [Hd _]%andb_true_iff.
  change (insertDashes (String c (String d s)))
    with (if isLower c && isUpper d
          then String c (String "-" (String d (insertDashes s)))
          else String c (insertDashes (String d s))).
  rewrite (isLower_not_isUpper d Hd), andb_false_r. by rewrite IH.
Qed.

Lemma insertDashes_lower_run s c t :
  allLower s = true → s ≠ EmptyString → isUpper c = true →
  insertDashes (s +:+ String c t) = s +:+ "-" +:+ insertDashes (String c t).
Proof.
  intros Hs Hne Hc. rewrite (insertDashes_not_lower c) by by apply isUpper_not_isLower.
  induction s as [|a s IH]; [done|]. clear Hne.
  apply andb_true_iff in Hs as [Ha Hs]. destruct s as [|b s].
  - simpl. by rewrite Ha, Hc.
  - pose proof Hs as [Hb _]%andb_true_iff.
    change (insertDashes (String a (String b s) +:+ String c t))
      with (if isLower a && isUpper b
            then String a (String "-" (String b (insertDashes (s +:+ String c t))))
            else String a (insertDashes (String b s +:+ String c t))).
    rewrite (isLower_not_isUpper b Hb), andb_false_r. rewrite IH by done. done.
Qed.

Lemma capitalizedWord_inv w :
  capitalizedWord w = true →
  ∃ c s, w = String c s ∧ isUpper c = true ∧ allLower s = true ∧ s ≠ EmptyString.
Proof.
  destruct w as [|c [|d s]]; try done. simpl.
  intros [[Hc Hd]%andb_true_iff Hs]%andb_true_iff.
  exists c, (String d s). repeat split; try done. simpl. by rewrite Hd, Hs.
Qed.

Lemma insertDashes_words ws :
  Forall (λ w, capitalizedWord w = true) ws → insertDashes (JS.join ws) = dashed ws.
Proof.
  induction 1 as [|w ws Hw Hws IH]; [done|].
  apply capitalizedWord_inv in Hw as (c & s & -> & Hc & Hs & Hne).
  change (JS.join (String c s :: ws)) with (String c (s +:+ JS.join ws)).
  rewrite insertDashes_not_lower by by apply isUpper_not_isLower.
  destruct Hws as [|w' ws Hw' Hws].
  - simpl. rewrite str_app_nil_r. by rewrite insertDashes_allLower.
  - pose proof Hw' as (c' & s' & -> & Hc' & _)%capitalizedWord_inv.
    change (JS.join (String c' s' :: ws)) with (String c' (s' +:+ JS.join ws)) in *.
    rewrite insertDashes_lower_run by done. rewrite IH.
    change (dashed (String c s :: String c' s' :: ws))
      with (String c s +:+ "-" +:+ dashed (String c' s' :: ws)). done.
Qed.

(** Step 2: small letters. *)
Lemma toLowerCase_app s t : toLowerCase (s +:+ t) = toLowerCase s +:+ toLowerCase t.
Proof. induction s as [|c s IH]; simpl; [done|]. by rewrite IH. Qed.

Lemma toLowerCase_dashed ws : toLowerCase (dashed ws) = dashed (toLowerCase <$> ws).
Proof.
  induction ws as [|w ws IH]; [done|]. destruct ws as [|w' ws]; [done|].
  change (dashed (w :: w' :: ws)) with (w +:+ "-" +:+ dashed (w' :: ws)).
  rewrite !toLowerCase_app, IH. done.
Qed.

Lemma allLower_toLowerCase w : capitalizedWord w = true → allLower (toLowerCase w) = true.
Proof.
  intros (c & s & -> & Hc & Hs & _)%capitalizedWord_inv. simpl.
  by rewrite isLower_lowerChar, toLowerCase_allLower.
Qed.

Lemma capitalize_toLowerCase w :
  capitalizedWord w = true → capitalize (toLowerCase w) = Normal w.
Proof.
  intros (c & s & -> & Hc & Hs & _)%capitalizedWord_inv. simpl.
  rewrite upperChar_lowerChar by done. by rewrite !(toLowerCase_allLower s) by done.
Qed.

Lemma prefix_module_capitalized w :
  capitalizedWord w = true →
  String.prefix "module" (toLowerCase w) = true → String.prefix "Module" w = true.
Proof.
  intros (c & s & -> & Hc & Hs & _)%capitalizedWord_inv. simpl.
  rewrite toLowerCase_allLower by done.
  destruct (ascii_dec "m" (lowerChar c)) as [Hm|]; [|done].
  assert (c = "M"%char) as -> by (rewrite <- (upperChar_lowerChar c Hc), <- Hm; done).
  done.
Qed.

(** Step 3: the removal of the occurrences of "-module". *)
Lemma prefix_before_dash p w t :
  allLower p = true → (t = EmptyString ∨ ∃ t', t = String "-" t') →
  String.prefix p (w +:+ t) = true → String.prefix p w = true.
Proof.
  intros Hp Ht. revert w. induction p as [|a p IH]; intros w; [by destruct w|].
  apply andb_true_iff in Hp as [Ha Hp]. destruct w as [|b w]; simpl.
  - destruct Ht as [->|[t' ->]]; [done|]. simpl.
    destruct (ascii_dec a "-") as [->|]; done.
  - destruct (ascii_dec a b); [|done]. by apply IH.
Qed.

Lemma removeAll_letters w t :
  allLower w = true →
  removeAllFrom "-module" 0 (w +:+ t) = w +:+ removeAllFrom "-module" 0 t.
Proof.
  induction w as [|c w IH]; [done|]. intros [Hc Hw]%andb_true_iff.
  change (removeAllFrom "-module" 0 (String c w +:+ t))
    with (if String.prefix "-module" (String c (w +:+ t))
          then removeAllFrom "-module" 6 (w +:+ t)
          else String c (removeAllFrom "-module" 0 (w +:+ t))).
  assert (String.prefix "-module" (String c (w +:+ t)) = false) as ->.
  { simpl. destruct (ascii_dec "-" c) as [<-|]; done. }
  by rewrite IH.
Qed.

Lemma removeAll_dash_word w t :
  allLower w = true → String.prefix "module" w = false →
  (t = EmptyString ∨ ∃ t', t = String "-" t') →
  removeAllFrom "-module" 0 ("-" +:+ w +:+ t)
  = "-" +:+ w +:+ removeAllFrom "-module" 0 t.
Proof.
  intros Hw Hprefix Ht.
  change (removeAllFrom "-module" 0 ("-" +:+ w +:+ t))
    with (if String.prefix "-module" (String "-" (w +:+ t))
          then removeAllFrom "-module" 6 (w +:+ t)
          else String "-" (removeAllFrom "-module" 0 (w +:+ t))).
  assert (String.prefix "-module" (String "-" (w +:+ t)) = false) as ->.
  { change (String.prefix "-module" (String "-" (w +:+ t)))
      with (String.prefix "module" (w +:+ t)).
    destruct (String.prefix "module" (w +:+ t)) eqn:Hp; [|done].
    apply prefix_before_dash in Hp; [congruence|done|done]. }
  by rewrite removeAll_letters.
Qed.

Lemma removeAll_dashTail ws :
  Forall (λ w, allLower w = true ∧ String.prefix "module" w = false) ws →
  removeAllFrom "-module" 0 (dashTail ws +:+ "-module") = dashTail ws.
Proof.
  induction 1 as [|w ws [Hw Hprefix] Hws IH]; [done|].
  change (dashTail (w :: ws) +:+ "-module")
    with ("-" +:+ (w +:+ dashTail ws) +:+ "-module").
  rewrite str_app_assoc. rewrite removeAll_dash_word; [by rewrite IH|done|done|].
  right. destruct ws; simpl; eauto.
Qed.

(** Step 4: the words that [split] finds. *)
Lemma split_letters w : allLower w = true → JS.split "-" w = [w].
Proof.
  induction w as [|c w IH]; [done|]. intros [Hc Hw]%andb_true_iff. simpl.
  rewrite bool_decide_eq_false_2 by by apply isLower_not_dash. by rewrite IH.
Qed.
Lemma split_letters_dash w t :
  allLower w = true → JS.split "-" (w +:+ String "-" t) = w :: JS.split "-" t.
Proof.
  induction w as [|c w IH]; [done|]. intros [Hc Hw]%andb_true_iff. simpl.
  rewrite bool_decide_eq_false_2 by by apply isLower_not_dash. by rewrite IH.
Qed.
Lemma split_dashed ws :
  ws ≠ [] → Forall (λ w, allLower w = true) ws → JS.split "-" (dashed ws) = ws.
Proof.
  intros Hne Hws. induction Hws as [|w ws Hw Hws IH]; [done|]. clear Hne.
  destruct ws as [|w' ws]; [by apply split_letters|].
  change (dashed (w :: w' :: ws)) with (w +:+ String "-" (dashed (w' :: ws))).
  rewrite split_letters_dash by done. by rewrite IH.
Qed.

Lemma mapM_capitalize ws :
  Forall (λ w, capitalizedWord w = true) ws →
  mapM capitalize (toLowerCase <$> ws) = Normal ws.
Proof.
  induction 1 as [|w ws Hw Hws IH]; [done|].
  change (mapM capitalize (toLowerCase <$> w :: ws))
    with (y ← capitalize (toLowerCase w); k ← mapM capitalize (toLowerCase <$> ws);
          mret (y :: k)).
  by rewrite capitalize_toLowerCase, IH.
Qed.

(** C10 (amended). A directory whose name is a sequence of one or more
    capitalized words (a capital letter followed by one or more small
    letters), of which none but the first begins with Module, followed by
    Module: [getModules] maps it to the words in small letters joined by
    dashes, and [getModuleConfig], given that name, looks for the default
    configuration in the directory of the original name. *)
Theorem module_name_round_trip (readdirSync : string → list Dirent) words :
  words ≠ [] →
  Forall (λ w, capitalizedWord w = true) words →
  Forall (λ w, String.prefix "Module" w = false) (tail words) →
  let directory := JS.join words +:+ "Module" in
  moduleName directory = dashed (toLowerCase <$> words)
  ∧ moduleFolderName (moduleName directory) = Normal directory
  ∧ moduleConfigPath (moduleName directory)
    = Normal (defaultModulesFolder +:+ "/" +:+ directory +:+ "/defaultConfig.json")
  ∧ ({| name := directory; isDirectory := true |} ∈ readdirSync defaultModulesFolder →
     moduleName directory ∈ getModules readdirSync).
Proof.
  intros Hne Hwords Htail directory.
  assert (Forall (λ w, capitalizedWord w = true) (words ++ ["Module"])) as Hall.
  { apply Forall_app. split; [done|]. by repeat constructor. }
  assert (directory = JS.join (words ++ ["Module"])) as Hdir.
  { unfold directory. by rewrite join_app. }
  assert (moduleName directory = dashed (toLowerCase <$> words)) as Hname.
  { unfold moduleName. rewrite Hdir, insertDashes_words, toLowerCase_dashed by done.
    rewrite fmap_app. destruct words as [|w words]; [done|].
    simpl tail in Htail. rewrite fmap_cons. simpl app.
    rewrite !dashed_dashTail, dashTail_app. simpl dashTail at 2.
    unfold removeAll. rewrite removeAll_letters.
    - f_equal. apply removeAll_dashTail.
      apply Forall_fmap, Forall_forall. intros w' Hw'. simpl. split.
      + apply allLower_toLowerCase.
        apply Forall_cons in Hwords as [_ Hwords].
        by apply (proj1 (Forall_forall _ _) Hwords).
      + destruct (String.prefix "module" (toLowerCase w')) eqn:Hp; [|done].
        apply prefix_module_capitalized in Hp.
        * rewrite (proj1 (Forall_forall _ _) Htail w' Hw') in Hp. done.
        * apply Forall_cons in Hwords as [_ Hwords].
          by apply (proj1 (Forall_forall _ _) Hwords).
    - apply allLower_toLowerCase. by apply Forall_cons in Hwords as [? _]. }
  assert (moduleFolderName (moduleName directory) = Normal directory) as Hfolder.
  { rewrite Hname. unfold moduleFolderName.
    assert (dashed (toLowerCase <$> words) +:+ "-module"
            = dashed (toLowerCase <$> (words ++ ["Module"]))) as ->.
    { rewrite fmap_app. destruct words as [|w words]; [done|].
      rewrite fmap_cons. simpl app. rewrite !dashed_dashTail, dashTail_app.
      simpl dashTail at 3. by rewrite str_app_assoc. }
    rewrite split_dashed.
    - rewrite mapM_capitalize by done. simpl. by rewrite Hdir.
    - by destruct words.
    - apply Forall_fmap. eapply Forall_impl; [exact Hall|].
      intros w Hw. by apply allLower_toLowerCase. }
  split; [done|]. split; [done|]. split.
  - unfold moduleConfigPath. by rewrite Hfolder.
  - intros Hin. unfold getModules.
    apply list_elem_of_fmap. exists directory. split; [done|].
    apply list_elem_of_fmap. exists {| name := directory; isDirectory := true |}.
    split; [done|]. apply list_elem_of_In, filter_In. split; [|done].
    by apply list_elem_of_In.
Qed.

End ModuleNames.

(** The theorem at the directory of the link detection module. *)
Lemma module_name_round_trip_witness :
  Forall (λ w, ServerManager.capitalizedWord w = true) ["Link"; "Detection"]
  ∧ ServerManager.moduleName "LinkDetectionModule" = "link-detection"
  ∧ ServerManager.moduleFolderName "link-detection" = Normal "LinkDetectionModule".
Proof.
  assert (Forall (λ w, ServerManager.capitalizedWord w = true) ["Link"; "Detection"]) as Hwords
    by (repeat constructor).
  assert (Forall (λ w, String.prefix "Module" w = false) (tail ["Link"; "Detection"])) as Htail
    by (repeat constructor).
  split; [exact Hwords|].
  pose proof (module_name_round_trip (λ _, []) ["Link"; "Detection"]
                ltac:(discriminate) Hwords Htail) as (Hname & Hfolder & _).
  split; [exact Hname | exact Hfolder].
Defined.

(** C10 as stated fails. The inner word Module of LinkModuleDetectionModule
    is removed with the suffix, and the name of the module leads to another
    directory; so do two capitals in a row, and the directory Module. *)
Lemma module_name_round_trip_fails :
  ServerManager.moduleName "LinkModuleDetectionModule" = "link-detection"
  ∧ ServerManager.moduleFolderName "link-detection" = Normal "LinkDetectionModule"
  ∧ ServerManager.moduleName "ABModule" = "abmodule"
  ∧ ServerManager.moduleFolderName "abmodule" = Normal "AbmoduleModule"
  ∧ ServerManager.moduleName "Module" = "module"
  ∧ ServerManager.moduleFolderName "module" = Normal "ModuleModule".
Proof. repeat split; reflexivity. Qed.

(** ** Link detection: the references of the annotations *)

Section DeepSearch.

Import LinkDetection.
Variable objects : list jsval.

Implicit Types (id : jsval) (ids found path : list jsval).

(** What the loop of [deepSearchObjectsWithIds] finds for one reference,
    with [depth] nested calls left. *)
#[local] Abbreviation visit depth id :=
  (match classify objects id with
   | Normal (inl obj) => Normal [obj]
   | Normal (inr ids') => deepSearchObjectsWithIds depth objects ids'
   | Throw e => Throw e
   end).

Lemma foldlM_ext {A B} (f f' : A → B → Completion A) a l :
  (∀ a x, f a x = f' a x) → foldlM f a l = foldlM f' a l.
Proof.
  intros Hf. revert a. induction l as [|x l IH]; intros a; simpl; [done|].
  rewrite Hf. destruct (f' a x); simpl; [apply IH | done].
Qed.

Lemma foldlM_append {A B} (g : B → Completion (list A)) acc l :
  foldlM (λ result x, r ← g x; mret (result ++ r)) acc l
  = rest ← foldlM (λ result x, r ← g x; mret (result ++ r)) [] l; mret (acc ++ rest).
Proof.
  revert acc. induction l as [|x l IH]; intros acc; simpl.
  - by rewrite app_nil_r.
  - destruct (g x) as [r|e]; simpl; [|done].
    rewrite (IH (acc ++ r)), (IH r).
    destruct (foldlM _ [] l) as [rest|e]; simpl; [|done].
    by rewrite app_assoc.
Qed.

Lemma deepSearch_unfold depth ids :
  deepSearchObjectsWithIds (S depth) objects ids
  = foldlM (λ result id, r ← visit depth id; mret (result ++ r)) [] ids.
Proof.
  cbn [deepSearchObjectsWithIds]. apply foldlM_ext. intros result id.
  unfold classify, mbind, completion_bind, mret, completion_ret.
  destruct (findObject objects id) as [obj|e]; cbn [JS.bind]; [|done].
  destruct (get [P "dict"] obj) as [dict|e]; cbn [JS.bind]; [|done].
  destruct (truthy dict); [done|].
  destruct (JS.bind (get _ obj) refIds) as [ids'|e]; cbn [JS.bind]; [|done].
  by destruct (deepSearchObjectsWithIds depth objects ids').
Qed.

Lemma deepSearch_nil depth : deepSearchObjectsWithIds (S depth) objects [] = Normal [].
Proof. done. Qed.

Lemma deepSearch_cons depth id ids :
  deepSearchObjectsWithIds (S depth) objects (id :: ids)
  = r ← visit depth id; rest ← deepSearchObjectsWithIds (S depth) objects ids; mret (r ++ rest).
Proof.
  rewrite !deepSearch_unfold. cbn [foldlM].
  destruct (classify objects id) as [[obj|ids']|e]; simpl; [| |done].
  - by rewrite foldlM_append.
  - destruct (deepSearchObjectsWithIds depth objects ids') as [r|e]; simpl; [|done].
    by rewrite foldlM_append.
Qed.


(** References and objects. *)
Lemma strictEq_eq (a b : jsval) : strictEq a b = true → a = b.
Proof. destruct a, b; simpl; try done. by intros ->%bool_decide_eq_true. Qed.

Lemma findObject_hasId (objs : list jsval) id obj :
  findObject objs id = Normal obj →
  obj = JUndefined ∨ ∃ n, hasId objs id n ∧ objs !! n = Some obj.
Proof.
  induction objs as [|o rest IH]; cbn [findObject].
  - intros [= <-]. by left.
  - unfold mbind, completion_bind.
    destruct (get [P "$"; P "id"] o) as [oid|e] eqn:Hoid; cbn [JS.bind]; [|done].
    destruct (strictEq oid id) eqn:Heq.
    + intros [= <-]. right. exists 0. apply strictEq_eq in Heq as ->.
      split; [|done]. by exists o.
    + intros [Hobj|(n & (o' & Ho' & Hid) & Hn)]%IH; [by left|].
      right. exists (S n). split; [|done]. by exists o'.
Qed.

Lemma classify_hasId id k :
  classify objects id = Normal k → ∃ n, hasId objects id n.
Proof.
  unfold classify, mbind, completion_bind.
  destruct (findObject objects id) as [obj|e] eqn:Hfind; cbn [JS.bind]; [|done].
  apply findObject_hasId in Hfind as [->|(n & Hn & _)]; [done|]. eauto.
Qed.

Lemma hasId_inj id id' n : hasId objects id n → hasId objects id' n → id = id'.
Proof. intros (o & Ho & Hid) (o' & Ho' & Hid'). congruence. Qed.

Lemma hasId_lt id n : hasId objects id n → n < length objects.
Proof. intros (o & Ho & _). by apply lookup_lt_Some in Ho. Qed.

(** The references of a path that never repeats are not more than the
    objects. *)
Lemma path_bound path :
  NoDup path → (∀ p, p ∈ path → ∃ n, hasId objects p n) → length path ≤ length objects.
Proof.
  intros Hnodup Hpath.
  assert (∃ ns, Forall2 (hasId objects) path ns) as [ns Hns].
  { clear Hnodup. induction path as [|p path IH]; [by exists []|].
    destruct (Hpath p) as [n Hn]; [left|].
    destruct IH as [ns Hns]; [intros; apply Hpath; by right|].
    exists (n :: ns). by constructor. }
  rewrite (Forall2_length _ _ _ Hns).
  replace (length objects) with (length (seq 0 (length objects))) by apply length_seq.
  apply submseteq_length, NoDup_submseteq.
  - clear Hpath. induction Hns as [|p n path ns Hn Hns IH]; [constructor|].
    apply NoDup_cons in Hnodup as [Hp Hnodup]. constructor; [|by apply IH].
    intros Hin. apply Hp.
    apply list_elem_of_lookup in Hin as [i Hi].
    destruct (Forall2_lookup_r _ _ _ _ _ Hns Hi) as (p' & Hp' & Hid).
    rewrite (hasId_inj _ _ _ Hn Hid). by eapply list_elem_of_lookup_2.
  - intros n Hn. apply elem_of_seq. split; [lia|]. simpl.
    apply list_elem_of_lookup in Hn as [i Hi].
    destruct (Forall2_lookup_r _ _ _ _ _ Hns Hi) as (p & _ & Hid).
    by eapply hasId_lt.
Qed.

(** Termination: with the references of the enclosing calls as [path], a
    call of depth [depth] returns when [depth] and the path together exceed
    the number of objects. *)
Lemma deepSearch_returns depth : ∀ path ids,
  NoDup path →
  (∀ p, p ∈ path → ∃ n, hasId objects p n) →
  (∀ p id, p ∈ path → id ∈ ids → tc (refersTo objects) p id) →
  (∀ id, reachable objects ids id →
         (∃ k, classify objects id = Normal k) ∧ ¬ tc (refersTo objects) id id) →
  length objects < depth + length path →
  ∃ found, deepSearchObjectsWithIds depth objects ids = Normal found
           ∧ depthFirst objects ids found.
Proof.
  induction depth as [|depth IH]; intros path ids Hnodup Hpath Htc Hok Hlen.
  { exfalso. pose proof (path_bound path Hnodup Hpath). simpl in Hlen. lia. }
  induction ids as [|id ids IHids].
  { exists []. split; [done | constructor]. }
  rewrite deepSearch_cons.
  destruct (Hok id) as [[k Hk] Hacyclic]. { exists id. split; [left|done]. }
  destruct IHids as (rest & Hrest & Hdf).
  { intros p j Hp Hj. apply Htc; [done | by right]. }
  { intros j (i & Hi & Hr). apply Hok. exists i. split; [by right|done]. }
  rewrite Hk. destruct k as [obj|ids'].
  - rewrite Hrest. exists (obj :: rest). split; [done|]. by constructor.
  - destruct (IH (id :: path) ids') as (below & Hbelow & Hdfb).
    + constructor; [|done]. intros Hin. apply Hacyclic, (Htc id id Hin). left.
    + intros p [->|Hp]%elem_of_cons; [by eapply classify_hasId | by apply Hpath].
    + intros p j [->|Hp]%elem_of_cons Hj.
      * apply tc_once. by exists ids'.
      * eapply tc_r; [apply Htc; [done | left]|]. by exists ids'.
    + intros x (j & Hj & Hr). apply Hok. exists id. split; [left|].
      eapply rtc_l; [|done]. by exists ids'.
    + simpl. lia.
    + rewrite Hbelow, Hrest. exists (below ++ rest). split; [done|]. by econstructor.
Qed.

Lemma depthFirst_det ids found found' :
  depthFirst objects ids found → depthFirst objects ids found' → found = found'.
Proof.
  intros Hdf. revert found'.
  induction Hdf as [|id ids obj found Hk Hdf IH|id ids ids' below found Hk Hdfb IHb Hdf IH];
    intros found' Hdf'; inversion Hdf' as [|? ? obj' ? Hk'|? ? ids'' ? ? Hk']; subst;
    try congruence.
  - assert (obj = obj') as <- by congruence. f_equal. by apply IH.
  - assert (ids' = ids'') as <- by congruence. f_equal; [by apply IHb | by apply IH].
Qed.

(** What is found: the dictionary objects that the references reach. *)
Lemma depthFirst_elem_of ids found :
  depthFirst objects ids found →
  ∀ obj, obj ∈ found ↔ ∃ id, reachable objects ids id ∧ classify objects id = Normal (inl obj).
Proof.
  induction 1 as [|id ids obj' found Hk Hdf IH|id ids ids' below found Hk Hdfb IHb Hdf IH];
    intros obj.
  - split; [by intros ?%elem_of_nil|]. by intros (id & (i & ?%elem_of_nil & _) & _).
  - rewrite elem_of_cons, IH. split.
    + intros [->|(x & (i & Hi & Hr) & Hx)].
      * exists id. split; [|done]. exists id. split; [left|done].
      * exists x. split; [|done]. exists i. split; [by right|done].
    + intros (x & (i & [->|Hi]%elem_of_cons & Hr) & Hx).
      * left. apply rtc_inv in Hr as [<-|(y & (ids' & Hy & _) & _)]; congruence.
      * right. exists x. split; [|done]. by exists i.
  - rewrite elem_of_app, IHb, IH. split.
    + intros [(x & (i & Hi & Hr) & Hx)|(x & (i & Hi & Hr) & Hx)].
      * exists x. split; [|done]. exists id. split; [left|].
        eapply rtc_l; [|done]. by exists ids'.
      * exists x. split; [|done]. exists i. split; [by right|done].
    + intros (x & (i & [->|Hi]%elem_of_cons & Hr) & Hx).
      * left. apply rtc_inv in Hr as [<-|(y & (ids'' & Hy & Hin) & Hr)]; [congruence|].
        exists x. split; [|done]. exists y. split; [|done]. congruence.
      * right. exists x. split; [|done]. by exists i.
Qed.

(** C9. On a graph of metadata objects in which every reference that is
    met resolves to a dictionary object or to a list of references, and no
    such reference leads back to itself, [deepSearchObjectsWithIds]
    returns, at every depth of the stack that exceeds the number of
    objects, the same list: the dictionary objects that the initial
    references reach, depth first and from left to right. *)
Theorem deep_search_depth_first ids :
  resolves objects ids → acyclic objects ids →
  ∃ found,
    (∀ depth, length objects < depth →
              deepSearchObjectsWithIds depth objects ids = Normal found)
    ∧ depthFirst objects ids found
    ∧ (∀ obj, obj ∈ found
              ↔ ∃ id, reachable objects ids id ∧ classify objects id = Normal (inl obj)).
Proof.
  intros Hresolves Hacyclic.
  assert (∀ depth, length objects < depth →
            ∃ found, deepSearchObjectsWithIds depth objects ids = Normal found
                     ∧ depthFirst objects ids found) as Hreturns.
  { intros depth Hdepth. apply (deepSearch_returns depth []).
    - constructor.
    - by intros p ?%elem_of_nil.
    - by intros p id ?%elem_of_nil.
    - intros id Hid. split; [by apply Hresolves | by apply Hacyclic].
    - simpl. lia. }
  destruct (Hreturns (S (length objects))) as (found & _ & Hdf); [lia|].
  exists found. split; [|split].
  - intros depth Hdepth. destruct (Hreturns depth Hdepth) as (found' & -> & Hdf').
    f_equal. by eapply depthFirst_det.
  - done.
  - by apply depthFirst_elem_of.
Qed.


(** A way to see that a graph meets the two conditions: a list of
    references that holds the initial ones and those of its list objects,
    and a rank that decreases along the references. *)
Lemma closed_ranked ids (known : list jsval) (rank : jsval → nat) :
  (∀ id, id ∈ ids → id ∈ known) →
  (∀ id, id ∈ known →
     match classify objects id with
     | Normal (inl _) => True
     | Normal (inr ids') => ∀ id', id' ∈ ids' → id' ∈ known ∧ rank id' < rank id
     | Throw _ => False
     end) →
  resolves objects ids ∧ acyclic objects ids.
Proof.
  intros Hids Hknown.
  assert (∀ x y, refersTo objects x y → x ∈ known → y ∈ known ∧ rank y < rank x) as Hstep.
  { intros x y (ids' & Hx & Hy) Hin. specialize (Hknown x Hin). rewrite Hx in Hknown. auto. }
  assert (∀ x y, rtc (refersTo objects) x y → x ∈ known → y ∈ known) as Hrtc.
  { induction 1 as [|x y z Hxy _ IH]; [done|]. intros Hx. apply IH. by apply (Hstep x y). }
  assert (∀ x y, tc (refersTo objects) x y → x ∈ known → y ∈ known ∧ rank y < rank x) as Htc.
  { induction 1 as [x y Hxy|x y z Hxy _ IH]; intros Hx; [by apply Hstep|].
    destruct (Hstep x y Hxy Hx) as [Hy Hlt]. destruct (IH Hy). split; [done|lia]. }
  split.
  - intros id (i & Hi & Hr). specialize (Hknown id (Hrtc i id Hr (Hids i Hi))).
    destruct (classify objects id) as [k|e]; [eauto|done].
  - intros id (i & Hi & Hr) Hcycle.
    destruct (Htc id id Hcycle (Hrtc i id Hr (Hids i Hi))). lia.
Qed.

End DeepSearch.

(** The theorem at a graph of two lists and two dictionaries. *)
Lemma deep_search_depth_first_witness :
  LinkDetection.resolves Sample.graph Sample.graphIds
  ∧ LinkDetection.acyclic Sample.graph Sample.graphIds
  ∧ LinkDetection.deepSearchObjectsWithIds 5 Sample.graph Sample.graphIds
    = Normal [Sample.object "7" [] []; Sample.object "9" [] []; Sample.object "9" [] []]
  ∧ ∃ found,
      (∀ depth, length Sample.graph < depth →
         LinkDetection.deepSearchObjectsWithIds depth Sample.graph Sample.graphIds = Normal found)
      ∧ LinkDetection.depthFirst Sample.graph Sample.graphIds found.
Proof.
  assert (LinkDetection.resolves Sample.graph Sample.graphIds
          ∧ LinkDetection.acyclic Sample.graph Sample.graphIds) as [Hresolves Hacyclic].
  { apply (closed_ranked Sample.graph Sample.graphIds
             [JString "5"; JString "7"; JString "8"; JString "9"] Sample.rank).
    - intros id Hid. unfold Sample.graphIds in Hid.
      repeat (apply elem_of_cons in Hid as [->|Hid]);
        [ | | by apply elem_of_nil in Hid]; set_solver.
    - intros id Hid.
      repeat (apply elem_of_cons in Hid as [->|Hid]);
        [ | | | | by apply elem_of_nil in Hid];
        match goal with
        | |- context [LinkDetection.classify ?o ?i] =>
            let c := eval vm_compute in (LinkDetection.classify o i) in
            change (LinkDetection.classify o i) with c
        end; cbv beta iota; try exact Logic.I;
        intros id' Hid';
        repeat (apply elem_of_cons in Hid' as [->|Hid']);
        try (by apply elem_of_nil in Hid');
        (split; [set_solver | vm_compute; lia]). }
  split; [exact Hresolves|]. split; [exact Hacyclic|]. split; [reflexivity|].
  destruct (deep_search_depth_first Sample.graph Sample.graphIds Hresolves Hacyclic)
    as (found & Hdepth & Hdf & _).
  exists found. split; [exact Hdepth | exact Hdf].
Defined.

(** ** Link detection: failures of the metadata extraction *)

Section MetadataFailures.

Import LinkDetection.
Variable parseFloat toNumber : string → number.
Variable getPercentageOfInclusion : BoundingBox.t → BoundingBox.t → number.
Variable getCommandLocationOnSystem : string → option string.
Variable spawn : string → string → ProcessRun.
Variable parseXmlToObject : string → Promise jsval.
Variable stackDepth : nat.

#[local] Abbreviation getFileMetadata :=
  (LinkDetection.getFileMetadata getCommandLocationOnSystem spawn parseXmlToObject).
#[local] Abbreviation toolFails := (LinkDetection.toolFails getCommandLocationOnSystem spawn).
#[local] Abbreviation pageAnnotations :=
  (LinkDetection.pageAnnotations parseFloat toNumber stackDepth).
#[local] Abbreviation collectAnnots :=
  (LinkDetection.collectAnnots parseFloat toNumber stackDepth).
#[local] Abbreviation extractLinksFromMetadata :=
  (LinkDetection.extractLinksFromMetadata parseFloat toNumber getCommandLocationOnSystem
     spawn parseXmlToObject stackDepth).
#[local] Abbreviation annotate := (LinkDetection.annotate getPercentageOfInclusion).
#[local] Abbreviation main :=
  (LinkDetection.main parseFloat toNumber getPercentageOfInclusion getCommandLocationOnSystem
     spawn parseXmlToObject stackDepth).

Lemma toolFails_rejected file : toolFails file → ∃ e, getFileMetadata file = Rejected e.
Proof.
  unfold LinkDetection.toolFails, LinkDetection.getFileMetadata.
  destruct (dumppdfLocation getCommandLocationOnSystem) as [[|c location]|]; [eauto| |eauto].
  intros [Hstderr|Hcode].
  - destruct (stderr _) as [|data rest]; [done|eauto].
  - destruct (stderr _) as [|data rest]; [|eauto].
    rewrite bool_decide_eq_false_2 by done. eauto.
Qed.

(** The loop over the pages stops at the first page that cannot be read,
    and keeps the annotations of the pages before it. *)
Lemma collectAnnots_until_failure objects pages before failing after results annots e :
  Forall2 (λ p r, pageAnnotations objects pages p = Normal r) before results →
  pageAnnotations objects pages failing = Throw e →
  collectAnnots objects pages (before ++ failing :: after) annots = annots ++ concat results.
Proof.
  intros Hbefore Hfailing. revert annots.
  induction Hbefore as [|p r before results Hp _ IH]; intros annots; simpl.
  - by rewrite Hfailing, app_nil_r.
  - by rewrite Hp, IH, app_assoc.
Qed.

Lemma collectAnnots_all objects pages pagesWithAnnots results annots :
  Forall2 (λ p r, pageAnnotations objects pages p = Normal r) pagesWithAnnots results →
  collectAnnots objects pages pagesWithAnnots annots = annots ++ concat results.
Proof.
  intros Hall. revert annots.
  induction Hall as [|p r ps results Hp _ IH]; intros annots; simpl.
  - by rewrite app_nil_r.
  - by rewrite Hp, IH, app_assoc.
Qed.

(** C6 (amended). When the tool is absent, writes to its standard error or
    does not exit with code 0, the failure is caught, the annotation list is
    empty, and the module completes with the document. When the metadata
    have been parsed, a failure of their structure is caught too and the
    module completes with the document: the annotation list is empty when
    the failure occurs before the pages are read, and holds the annotations
    of the pages read before the failing one otherwise. The run is never
    rejected. *)
Theorem metadata_failures_caught doc :
  (toolFails (inputFile doc) →
     extractLinksFromMetadata (inputFile doc) = Resolved []
     ∧ main doc = Resolved (annotate [] doc))
  ∧ (∀ metadata,
       getFileMetadata (inputFile doc) = Resolved metadata →
       (∃ annots, extractLinksFromMetadata (inputFile doc) = Resolved annots
                  ∧ main doc = Resolved (annotate annots doc))
       ∧ (∀ e, readPages metadata = Throw e →
               extractLinksFromMetadata (inputFile doc) = Resolved [])
       ∧ (∀ objects pages before failing after results e,
            readPages metadata = Normal (objects, pages, before ++ failing :: after) →
            Forall2 (λ p r, pageAnnotations objects pages p = Normal r) before results →
            pageAnnotations objects pages failing = Throw e →
            extractLinksFromMetadata (inputFile doc) = Resolved (concat results)))
  ∧ (∀ e, main doc ≠ Rejected e).
Proof.
  split; [|split].
  - intros [e He]%toolFails_rejected.
    unfold LinkDetection.main, LinkDetection.extractLinksFromMetadata. by rewrite He.
  - intros metadata Hmetadata.
    unfold LinkDetection.main, LinkDetection.extractLinksFromMetadata. rewrite Hmetadata.
    split; [|split].
    + destruct (readPages metadata) as [[[objects pages] pagesWithAnnots]|e]; eauto.
    + by intros e ->.
    + intros objects pages before failing after results e -> Hbefore Hfailing.
      by rewrite (collectAnnots_until_failure _ _ _ _ _ results [] e).
  - intros e. unfold LinkDetection.main, LinkDetection.extractLinksFromMetadata.
    destruct (getFileMetadata (inputFile doc)) as [metadata|e'|]; [|done|done].
    by destruct (readPages metadata) as [[[objects pages] pagesWithAnnots]|e'].
Qed.

(** The module completes exactly when the promise of the metadata is
    settled: it stays pending when dumppdf exits with code 0, silently, and
    the parser rejects its output. *)
Lemma main_pending doc :
  main doc = Pending ↔ getFileMetadata (inputFile doc) = Pending.
Proof.
  unfold LinkDetection.main, LinkDetection.extractLinksFromMetadata.
  destruct (getFileMetadata (inputFile doc)) as [metadata|e|]; [|done|done].
  by destruct (readPages metadata) as [[[objects pages] pagesWithAnnots]|e].
Qed.

End MetadataFailures.

(** The theorem at the metadata of a file of two pages, the second of
    which cannot be read. *)
Lemma metadata_failures_caught_witness :
  LinkDetection.getFileMetadata Sample.dumppdfLocation Sample.dumppdf Sample.parseXmlToObject
    (inputFile Sample.twoPages) = Resolved Sample.metadata
  ∧ LinkDetection.pageAnnotations Sample.parseFloat Sample.parseFloat 100
      [Sample.firstPage; Sample.secondPage; Sample.linkAnnotation]
      [Sample.firstPage; Sample.secondPage] Sample.secondPage = Throw "TypeError"
  ∧ LinkDetection.extractLinksFromMetadata Sample.parseFloat Sample.parseFloat
      Sample.dumppdfLocation Sample.dumppdf Sample.parseXmlToObject 100
      (inputFile Sample.twoPages) = Resolved (concat [[Sample.firstAnnotation]]).
Proof.
  split; [reflexivity|]. split; [reflexivity|].
  refine (proj2 (proj2 (proj1 (proj2 (metadata_failures_caught Sample.parseFloat
    Sample.parseFloat Sample.getPercentageOfInclusion Sample.dumppdfLocation Sample.dumppdf
    Sample.parseXmlToObject 100 Sample.twoPages)) Sample.metadata eq_refl))
    [Sample.firstPage; Sample.secondPage; Sample.linkAnnotation]
    [Sample.firstPage; Sample.secondPage]
    [Sample.firstPage] Sample.secondPage [] [[Sample.firstAnnotation]] "TypeError"
    eq_refl _ eq_refl).
  constructor; [vm_compute; reflexivity | constructor].
Defined.

(** C6 as stated fails. The metadata of a file of two pages parse, the
    first page has one link annotation, and the second page, which has no
    MediaBox of its own, cannot be read: the failure is caught, and the
    annotation list holds the annotation of the first page. And when the
    output of dumppdf is no XML, the module never completes. *)
Lemma structure_failure_keeps_annotations :
  LinkDetection.pageAnnotations Sample.parseFloat Sample.parseFloat 100
    [Sample.firstPage; Sample.secondPage; Sample.linkAnnotation]
    [Sample.firstPage; Sample.secondPage] Sample.secondPage = Throw "TypeError"
  ∧ LinkDetection.extractLinksFromMetadata Sample.parseFloat Sample.parseFloat
      Sample.dumppdfLocation Sample.dumppdf Sample.parseXmlToObject 100 "two-pages.pdf"
    = Resolved [Sample.firstAnnotation]
  ∧ LinkDetection.main Sample.parseFloat Sample.parseFloat Sample.getPercentageOfInclusion
      Sample.dumppdfLocation Sample.dumppdf Sample.parseXmlToObject 100 Sample.broken
    = Pending.
Proof. split; [reflexivity|]. split; [vm_compute; reflexivity | reflexivity]. Qed.

(** * Part III: further properties of the code *)

(** ** Completions *)

Section Completions.




End Completions.

(** ** The words of a line *)

Section WordBreaking.

Import JS Pdfminer Lines.

Variable parseFloat : string → number.
Variable toNumber : string → number.
Variable merge : list BoundingBox.t → BoundingBox.t.
Variable undefinedFont : Font.t.

#[local] Abbreviation breakLineIntoWords := (Pdfminer.breakLineIntoWords parseFloat toNumber merge undefinedFont).
#[local] Abbreviation readSlot := (Lines.readSlot parseFloat toNumber).
#[local] Abbreviation cutAtEmptySlots := (Lines.cutAtEmptySlots merge undefinedFont).
#[local] Abbreviation newWord := (Pdfminer.newWord merge undefinedFont).
#[local] Abbreviation defined := (omap (M:=list) (@id (option Character))).
#[local] Abbreviation nonEmpty := (λ run : list Character, 0 < length run).

Lemma breakLineIntoWords_steps line wordSeparator pageHeight scalingFactor :
  breakLineIntoWords line wordSeparator pageHeight scalingFactor
  = (chars ← mapM (readSlot pageHeight scalingFactor) (keptSlots line);
     mret (cutAtEmptySlots (trimEnds wordSeparator chars))).
Proof.
  unfold Pdfminer.breakLineIntoWords.
  change (mapM _ (keptSlots line)) with (mapM (readSlot pageHeight scalingFactor) (keptSlots line)).
  destruct (mapM _ _) as [chars|e]; [|done].
  unfold mbind, completion_bind, mret, completion_ret. cbn [JS.bind].
  fold (trimEnds wordSeparator chars).
  unfold Lines.cutAtEmptySlots.
  destruct (trimEnds wordSeparator chars) as [|[c|] [|c' chars']]; try done.
  - fold (sepLocs (Some c :: c' :: chars')). by destruct (sepLocs _).
  - fold (sepLocs (None :: c' :: chars')). by destruct (sepLocs _).
Qed.

#[local] Arguments JS.slice : simpl never.

(** The positions of the empty slots, counted from [k]. *)
Lemma empty_positions (k : nat) (chars : list (option Character)) :
  let positions := omap id (imap (λ i c, if isUndefined c then Some (k + i) else None) chars) in
  Forall (λ p, k ≤ p < k + length chars) positions
  ∧ ∀ pre, length pre = k →
      defined <$> slices k positions (pre ++ chars) = runs chars.
Proof.
  revert k. induction chars as [|c chars IH]; intros k; cbn zeta.
  - split; [constructor|]. intros pre <-. rewrite app_nil_r.
    simpl. unfold slice. by rewrite Nat.sub_diag.
  - assert (omap id (imap (λ i c, if isUndefined c then Some (k + i) else None) (c :: chars))
            = match c with None => [k] | Some _ => [] end
              ++ omap id (imap (λ i c, if isUndefined c then Some (S k + i) else None) chars)) as ->.
    { rewrite imap_cons.
      rewrite (imap_ext _ (λ i c, if isUndefined c then Some (S k + i) else None) chars)
        by (intros; simpl; repeat case_match; f_equal; lia).
      destruct c; simpl; rewrite ?Nat.add_0_r; done. }
    destruct (IH (S k)) as [Hpos Hruns]. cbn zeta in Hpos, Hruns.
    set (positions := omap id (imap _ chars)) in *. clearbody positions.
    assert (Forall (λ p, k ≤ p < k + length (c :: chars)) positions) as Hpos'.
    { eapply Forall_impl; [exact Hpos|]. simpl. lia. }
    destruct c as [c|]; simpl.
    + split; [done|]. intros pre Hpre.
      specialize (Hruns (pre ++ [Some c])). rewrite length_app, <-app_assoc in Hruns.
      simpl in Hruns. specialize (Hruns ltac:(lia)). rewrite <-Hruns.
      assert (∀ to, k < to → slice k to (pre ++ Some c :: chars)
                             = Some c :: slice (S k) to (pre ++ Some c :: chars)) as Hslice.
      { intros to Hto. unfold slice. subst k. rewrite drop_app_length.
        rewrite (cons_middle (Some c)), app_assoc, drop_app_length'
          by (rewrite length_app; simpl; lia).
        destruct (to - length pre) as [|n] eqn:Hn; [lia|].
        replace (to - S (length pre)) with n by lia. done. }
      destruct positions as [|p positions']; simpl.
      * rewrite Hslice by (rewrite length_app; simpl; lia). done.
      * apply Forall_cons in Hpos as [Hp _]. rewrite Hslice by lia. done.
    + split; [constructor; [simpl; lia|done]|].
      intros pre Hpre.
      specialize (Hruns (pre ++ [None])). rewrite length_app, <-app_assoc in Hruns.
      simpl in Hruns. specialize (Hruns ltac:(lia)).
      replace (k + 1) with (S k) by lia.
      change (list_fmap _ _ ?f ?l) with (f <$> l). rewrite Hruns.
      unfold slice. by rewrite Nat.sub_diag.
Qed.

Lemma sepLocs_cons c chars :
  sepLocs (c :: chars)
  = omap id (imap (λ i c, if isUndefined c then Some (1 + i) else None) chars).
Proof.
  unfold sepLocs. rewrite imap_cons.
  destruct (empty_positions 1 chars) as [Hpos _]. cbn zeta in Hpos.
  rewrite (imap_ext _ (λ i c, if isUndefined c then Some (1 + i) else None) chars)
    by (intros; simpl; repeat case_match; f_equal; lia).
  assert (∀ (x : option nat) l,
            omap id (x :: l) = match x with Some p => [p] | None => [] end ++ omap id l)
    as -> by (by intros [] ?).
  set (positions := omap id (imap _ chars)) in *. clearbody positions.
  assert (List.filter (λ l, negb (l =? 0) && negb (l =? length (c :: chars))) positions
          = positions) as Hall.
  { induction Hpos as [|p positions Hp _ IH]; [done|]. simpl in *.
    destruct (Nat.eqb_spec p 0); [lia|].
    destruct (Nat.eqb_spec p (S (length chars))); [lia|]. simpl. by rewrite IH. }
  destruct c; exact Hall.
Qed.

Lemma foldl_push (sel : nat → list Character) (indices : list nat) (words : list Word) :
  foldl (λ words i, if bool_decide (0 < length (sel i))
                    then words ++ [newWord (sel i)] else words) words indices
  = words ++ (newWord <$> filter nonEmpty (sel <$> indices)).
Proof.
  revert words. induction indices as [|i indices IH]; intros words; simpl.
  - by rewrite app_nil_r.
  - rewrite IH, filter_cons. case_bool_decide; case_decide; try lia.
    + by rewrite <-app_assoc.
    + done.
Qed.

Lemma loop_slices (chars : list (option Character)) (sepLocs before : list nat) s (after : list nat) :
  sepLocs = before ++ s :: after →
  (λ i, slice (default 0 (sepLocs !! i) + 1)
              (if bool_decide (i ≠ length sepLocs - 1)
               then default 0 (sepLocs !! (i + 1)) else length chars) chars)
    <$> seq (length before) (S (length after))
  = slices (s + 1) after chars.
Proof.
  revert before s. induction after as [|s' after IH]; intros before s Hlocs.
  - cbn [seq fmap list_fmap slices length]. subst sepLocs.
    rewrite list_lookup_middle by done.
    rewrite length_app. cbn [length default].
    rewrite bool_decide_false by lia. done.
  - cbn [seq fmap list_fmap slices length]. f_equal.
    + subst sepLocs. rewrite list_lookup_middle by done.
      rewrite length_app. cbn [length default].
      rewrite bool_decide_true by lia.
      rewrite (cons_middle s), app_assoc.
      rewrite list_lookup_middle by (rewrite length_app; simpl; lia). done.
    + specialize (IH (before ++ [s]) s').
      rewrite <-app_assoc, length_app in IH. cbn [length] in IH.
      replace (length before + 1) with (S (length before)) in IH by lia.
      apply IH. by rewrite Hlocs.
Qed.

(** The index arithmetic of the loop amounts to this: one word for every
    run of characters that is not empty. *)
Lemma cutAtEmptySlots_runs chars :
  cutAtEmptySlots chars = newWord <$> filter nonEmpty (runs chars).
Proof.
  destruct chars as [|c chars]; [done|].
  assert (c :: chars = [None] ∨ c :: chars ≠ [None]) as [[= -> ->]|Hne]; [|done|].
  { destruct c, chars; auto. }
  destruct (empty_positions 1 chars) as [Hpos Hruns]. cbn zeta in Hpos, Hruns.
  specialize (Hruns [c] eq_refl). rewrite <-(sepLocs_cons c) in Hpos, Hruns.
  change ([c] ++ chars) with (c :: chars) in Hruns.
  assert (cutAtEmptySlots (c :: chars)
          = newWord <$> filter nonEmpty (defined <$> slices 0 (sepLocs (c :: chars)) (c :: chars)))
    as ->.
  { unfold Lines.cutAtEmptySlots. fold (sepLocs (c :: chars)).
    assert (∀ ws : list Word, match c :: chars with [] | [None] => [] | _ => ws end = ws) as ->.
    { intros ws. destruct c, chars; done. }
    destruct (sepLocs (c :: chars)) as [|first rest] eqn:Hlocs.
    - cbn [slices fmap list_fmap]. unfold slice. rewrite Nat.sub_0_r, drop_0, firstn_all.
      cbn [slices fmap list_fmap] in Hruns.
      rewrite filter_cons, filter_nil. rewrite decide_True; [done|].
      destruct c; simpl; [lia|].
      destruct chars as [|[c'|] chars]; [done|simpl; lia|].
      rewrite sepLocs_cons in Hlocs. discriminate Hlocs.
    - pose proof (loop_slices (c :: chars) (first :: rest) [] first rest eq_refl) as Hloop.
      cbn [slices fmap list_fmap]. rewrite <-Hloop.
      etrans; [apply (foldl_push (λ i, defined (slice _ _ (c :: chars))))|].
      rewrite <-list_fmap_compose, filter_cons.
      case_bool_decide; case_decide; try lia; done. }
  f_equal.
  destruct (sepLocs (c :: chars)) as [|p positions]; cbn [slices fmap list_fmap] in *.
  - destruct c as [c|]; simpl.
    + rewrite <-Hruns. unfold slice. simpl. by rewrite Nat.sub_0_r, !firstn_all.
    + rewrite <-Hruns. unfold slice. simpl. rewrite Nat.sub_0_r, !firstn_all.
      rewrite !filter_cons, filter_nil. simpl. repeat case_decide; done || lia.
  - apply Forall_cons in Hpos as [Hp _].
    assert (slice 0 p (c :: chars) = c :: slice 1 p (c :: chars)) as ->.
    { unfold slice. destruct p as [|p]; [lia|]. simpl. by rewrite Nat.sub_0_r. }
    destruct c as [c|]; simpl.
    + rewrite <-Hruns. done.
    + rewrite <-Hruns. rewrite (filter_cons _ []). by rewrite decide_False by (simpl; lia).
Qed.

Lemma concat_runs chars : concat (filter nonEmpty (runs chars)) = defined chars.
Proof.
  assert (∀ l : list (list Character), concat (filter nonEmpty l) = concat l) as ->.
  { induction l as [|run l IH]; [done|]. rewrite filter_cons.
    case_decide; simpl; [by rewrite IH|]. rewrite IH. destruct run; [done|simpl in *; lia]. }
  induction chars as [|[c|] chars IH]; [done| |exact IH].
  change (defined (Some c :: chars)) with (c :: defined chars). rewrite <-IH.
  cbn [runs]. by destruct (runs chars).
Qed.

(** X1. [breakLineIntoWords] makes one word of every maximal run of
    characters between two empty slots of the trimmed line, in the order of
    the line; a run with no character makes no word. *)
Theorem line_words_are_runs line wordSeparator pageHeight scalingFactor :
  breakLineIntoWords line wordSeparator pageHeight scalingFactor
  = (chars ← mapM (readSlot pageHeight scalingFactor) (keptSlots line);
     mret (newWord <$> filter nonEmpty (runs (trimEnds wordSeparator chars)))).
Proof.
  rewrite breakLineIntoWords_steps.
  destruct (mapM _ _) as [chars|e]; [|done].
  unfold mbind, completion_bind, mret, completion_ret. cbn [JS.bind].
  by rewrite cutAtEmptySlots_runs.
Qed.

(** X2. When [breakLineIntoWords] returns, the characters of the words,
    read in order, are the characters of the trimmed line: none is lost,
    repeated or moved. No word is empty, no word has a property yet, and
    the box and the font of a word are the merged box and the most common
    font of its characters. *)
Theorem line_words_partition line wordSeparator pageHeight scalingFactor words :
  breakLineIntoWords line wordSeparator pageHeight scalingFactor = Normal words →
  ∃ chars,
    mapM (readSlot pageHeight scalingFactor) (keptSlots line) = Normal chars
    ∧ concat (word_content <$> words) = omap id (trimEnds wordSeparator chars)
    ∧ Forall (λ w, 0 < length (word_content w)
                   ∧ properties w = ∅
                   ∧ word_box w = merge (char_box <$> word_content w)
                   ∧ word_font w
                     = Pdfminer.getMostCommonFont undefinedFont (char_font <$> word_content w))
             words.
Proof.
  rewrite breakLineIntoWords_steps.
  destruct (mapM _ _) as [chars|e]; [|done].
  unfold mbind, completion_bind, mret, completion_ret. cbn [JS.bind].
  rewrite cutAtEmptySlots_runs. intros [= <-]. exists chars. split; [done|]. split.
  - rewrite <-list_fmap_compose.
    rewrite (list_fmap_ext _ id (filter nonEmpty (runs (trimEnds wordSeparator chars))))
      by done.
    rewrite list_fmap_id. apply concat_runs.
  - apply Forall_fmap, Forall_forall. intros run Hrun.
    apply list_elem_of_filter in Hrun as [Hrun _]. done.
Qed.



End WordBreaking.

(** The theorem at the line [a, layout space, b, layout space, space glyph,
    c]. *)
Lemma line_words_partition_witness :
  ∃ words,
    Pdfminer.breakLineIntoWords Sample.parseFloat Sample.parseFloat Sample.merge
      Sample.undefinedFont Sample.spacedLine " " (JS.ofZ 100) (JS.ofZ 1) = Normal words
    ∧ ∃ chars,
        mapM (Lines.readSlot Sample.parseFloat Sample.parseFloat (JS.ofZ 100) (JS.ofZ 1))
             (Pdfminer.keptSlots Sample.spacedLine) = Normal chars
        ∧ concat (word_content <$> words) = omap id (Lines.trimEnds " " chars)
        ∧ Forall (λ w, 0 < length (word_content w)
                       ∧ properties w = ∅
                       ∧ word_box w = Sample.merge (char_box <$> word_content w)
                       ∧ word_font w
                         = Pdfminer.getMostCommonFont Sample.undefinedFont
                             (char_font <$> word_content w))
                 words.
Proof.
  assert (∃ words,
            Pdfminer.breakLineIntoWords Sample.parseFloat Sample.parseFloat Sample.merge
              Sample.undefinedFont Sample.spacedLine " " (JS.ofZ 100) (JS.ofZ 1) = Normal words)
    as [words Hwords] by (vm_compute; eauto).
  exists words. split; [exact Hwords|].
  exact (line_words_partition _ _ _ _ _ _ _ _ _ Hwords).
Defined.

(** ** The outcome of a page *)

Section PageOutcome.
Import Pdfminer Lines.
Variable parseFloat toNumber : string → number.
Variable merge : list BoundingBox.t → BoundingBox.t.
Variable undefinedFont : Font.t.
Variable pathJoin : string → string → string.
Variable getAllElements : Document → list Element.

#[local] Abbreviation breakLineIntoWords := (Pdfminer.breakLineIntoWords parseFloat toNumber merge undefinedFont).
#[local] Abbreviation readSlot := (Lines.readSlot parseFloat toNumber).
#[local] Abbreviation getPage :=
  (Pdfminer.getPage parseFloat toNumber merge undefinedFont pathJoin getAllElements).
#[local] Abbreviation treatParagraphs := (Pdfminer.treatParagraphs parseFloat toNumber merge undefinedFont).
#[local] Abbreviation figureImages := (Pdfminer.figureImages parseFloat pathJoin).

(** When the promise of [getPage] is rejected. *)
#[local] Abbreviation bareText pageObj :=
  (∃ boxes box line slot,
     textbox pageObj = Some boxes ∧ box ∈ boxes ∧ line ∈ textline box
     ∧ slot ∈ keptSlots line ∧ charkey slot ≠ None ∧ text_attr slot = None).






End PageOutcome.

(** ** A run that never settles *)

Section ExecuteHangs.
Import Pdfminer.
Variable parseFloat toNumber : string → number.
Variable merge : list BoundingBox.t → BoundingBox.t.
Variable undefinedFont : Font.t.
Variable pathJoin : string → string → string.
Variable getAllElements : Document → list Element.
Variable tesseractRun abbyyRun : string → Promise Document.
Variable getCommandLocationOnSystem : string → option string.
Variable repairPdf : string → string.
Variable getTemporaryDirectory : string.
Variable spawn : string → string → Pdfminer.ProcessRun.
Variable parseString : string → string + Pdfminer.PdfminerOutput.

#[local] Abbreviation getPage :=
  (Pdfminer.getPage parseFloat toNumber merge undefinedFont pathJoin getAllElements
     tesseractRun abbyyRun).
#[local] Abbreviation execute :=
  (Pdfminer.execute parseFloat toNumber merge undefinedFont pathJoin getAllElements
     tesseractRun abbyyRun getCommandLocationOnSystem repairPdf getTemporaryDirectory
     spawn parseString).
#[local] Abbreviation pdf2txtLocation := (Pdfminer.pdf2txtLocation getCommandLocationOnSystem).

(** A slot of a page that has a text and no attributes. *)
#[local] Abbreviation bareText pageObj :=
  (∃ boxes box line slot,
     textbox pageObj = Some boxes ∧ box ∈ boxes ∧ line ∈ textline box
     ∧ slot ∈ keptSlots line ∧ charkey slot ≠ None ∧ text_attr slot = None).

End ExecuteHangs.

(** ** Bounding boxes *)

Section Boxes.
Import Pdfminer.
Variable parseFloat : string → number.

#[local] Abbreviation getBoundingBox := (Pdfminer.getBoundingBox parseFloat).

Lemma Qcabs_sub_le (x y : Qc) : (x ≤ y)%Qc → Qcabs (y - x) = (y - x)%Qc.
Proof.
  intros Hle. apply Qcabs_pos. apply Qcle_minus_iff in Hle.
  by replace (y - x)%Qc with (y + - x)%Qc by ring.
Qed.

(** X5. The width and the height of the box that [getBoundingBox] makes are
    never negative. For a box of pdfminer [x0, y0, x1, y1] with
    [x0 <= x1] and [y0 <= y1] that lies below the top of the page, the box
    made is the one with left [x0], top [pageHeight - y1], width
    [x1 - x0] and height [y1 - y0], all scaled: the vertical axis is
    turned over. Values after the fourth are ignored. *)
Theorem getBoundingBox_turns_over bbox splitter pageHeight scalingFactor :
  (∀ w, BoundingBox.width (getBoundingBox bbox splitter pageHeight scalingFactor) = Some w →
        (0 ≤ w)%Qc)
  ∧ (∀ h, BoundingBox.height (getBoundingBox bbox splitter pageHeight scalingFactor) = Some h →
          (0 ≤ h)%Qc)
  ∧ ∀ H sf x0 y0 x1 y1 rest,
      pageHeight = Some H → scalingFactor = Some sf →
      parseFloat <$> JS.split splitter bbox
        = Some x0 :: Some y0 :: Some x1 :: Some y1 :: rest →
      (x0 * sf ≤ x1 * sf)%Qc → (y0 * sf ≤ y1 * sf)%Qc → (y1 * sf ≤ H)%Qc →
      getBoundingBox bbox splitter pageHeight scalingFactor
      = BoundingBox.make (Some (x0 * sf)%Qc) (Some (H - y1 * sf)%Qc)
                         (Some (x1 * sf - x0 * sf)%Qc) (Some (y1 * sf - y0 * sf)%Qc).
Proof.
  unfold Pdfminer.getBoundingBox. cbn [BoundingBox.width BoundingBox.height].
  split; [|split].
  - intros w Hw. unfold JS.abs in Hw. apply fmap_Some in Hw as (d & _ & ->).
    apply Qcabs_nonneg.
  - intros h Hh. unfold JS.abs in Hh. apply fmap_Some in Hh as (d & _ & ->).
    apply Qcabs_nonneg.
  - intros H sf x0 y0 x1 y1 rest -> -> Hvalues Hx Hy Htop.
    rewrite (list_fmap_compose parseFloat (λ n, JS.mul n (Some sf))), Hvalues.
    cbn [fmap list_fmap lookup list_lookup default from_option id
         JS.mul JS.sub JS.abs option_fmap option_map].
    rewrite (Qcabs_sub_le _ _ Hx), (Qcabs_Qcminus (y0 * sf)), (Qcabs_sub_le _ _ Hy).
    rewrite Qcabs_sub_le by (etrans; [exact Hy|exact Htop]).
    do 2 f_equal. ring.
Qed.
End Boxes.

Lemma getBoundingBox_turns_over_witness :
  Pdfminer.getBoundingBox Sample.parseFloat "10,20,40,70" "," (JS.ofZ 100) (JS.ofZ 1)
  = BoundingBox.make (JS.ofZ 10) (JS.ofZ 30) (JS.ofZ 30) (JS.ofZ 50).
Proof.
  etrans.
  - apply (proj2 (proj2 (getBoundingBox_turns_over Sample.parseFloat "10,20,40,70" ","
                           (JS.ofZ 100) (JS.ofZ 1)))
             (Q2Qc 100) (Q2Qc 1) (Q2Qc 10) (Q2Qc 20) (Q2Qc 40) (Q2Qc 70) []);
      [reflexivity | reflexivity | reflexivity | by vm_compute..].
  - unfold JS.ofZ. f_equal; f_equal; apply Qc_is_canon; reflexivity.
Defined.

(** ** Colours *)

Section ColourFormat.
Import Pdfminer Colours.
Variable toNumber : string → number.
#[local] Abbreviation ncolourToHex := (Pdfminer.ncolourToHex toNumber).

Lemma bytes_hex :
  forallb (λ n, hexPair (component (Some (Q2Qc (inject_Z (Z.of_nat n)) / Q2Qc 255)%Qc)))
          (seq 0 256) = true.
Proof. vm_compute. reflexivity. Qed.

Lemma component_by_ceiling (p q : Qc) :
  Qceiling (p * Q2Qc 255)%Qc = Qceiling (q * Q2Qc 255)%Qc →
  component (Some p) = component (Some q).
Proof.
  intros Hceiling. unfold component, JS.ceilToString16, JS.mul, JS.ofZ. cbv zeta.
  change (Q2Qc (inject_Z 255)) with (Q2Qc 255). by rewrite Hceiling.
Qed.

Lemma component_hexPair (q : Qc) :
  (0 ≤ q)%Qc → (q ≤ 1)%Qc → hexPair (component (Some q)) = true.
Proof.
  intros H0 H1.
  set (z := Qceiling (q * Q2Qc 255)%Qc).
  assert (0 ≤ z ≤ 255)%Z as Hz.
  { split.
    - change 0%Z with (Qceiling (Q2Qc 0)). apply Qceiling_resp_le.
      change (Q2Qc 0 ≤ q * Q2Qc 255)%Qc. by apply Qcmult_nonneg_nonneg.
    - change 255%Z with (Qceiling (1 * Q2Qc 255)%Qc). apply Qceiling_resp_le.
      change (q * Q2Qc 255 ≤ 1 * Q2Qc 255)%Qc. by apply Qcmult_le_compat_r. }
  pose proof bytes_hex as Hall. rewrite forallb_forall in Hall.
  specialize (Hall (Z.to_nat z)). rewrite in_seq in Hall. specialize (Hall ltac:(lia)).
  rewrite Z2Nat.id in Hall by lia.
  rewrite <-Hall. f_equal. apply component_by_ceiling. fold z.
  replace (Q2Qc (inject_Z z) / Q2Qc 255 * Q2Qc 255)%Qc with (Q2Qc (inject_Z z)).
  - symmetry. etrans; [|apply (Qceiling_Z z)]. apply Qceiling_comp. simpl. apply Qred_correct.
  - field. done.
Qed.

Lemma split_head (sep : ascii) (s : string) : ∃ w ws, JS.split sep s = w :: ws.
Proof.
  induction s as [|c s (w & ws & IH)]; simpl; [eauto|].
  case_bool_decide; [eauto|]. rewrite IH. eauto.
Qed.

(** X6. When every component of a colour of pdfminer is a number between 0
    and 1, [ncolourToHex] writes it as a sharp sign and three pairs of
    hexadecimal digits, as a colour of HTML. *)
Theorem ncolourToHex_format color :
  (∀ x, x ∈ JS.split "," (JS.removeFirst "]" (JS.removeFirst "[" color)) →
        ∃ q, toNumber x = Some q ∧ (0 ≤ q)%Qc ∧ (q ≤ 1)%Qc) →
  ∃ r g b,
    ncolourToHex color = "#" +:+ r +:+ g +:+ b
    ∧ hexPair r = true ∧ hexPair g = true ∧ hexPair b = true.
Proof.
  intros Hcomponents. unfold Pdfminer.ncolourToHex.
  destruct (split_head "," (JS.removeFirst "]" (JS.removeFirst "[" color))) as (x0 & xs & Hsplit).
  rewrite Hsplit in *.
  set (orFirst := λ i : nat,
         match (x0 :: xs) !! i with
         | Some x => if bool_decide (x = EmptyString) then default EmptyString ((x0 :: xs) !! 0) else x
         | None => default EmptyString ((x0 :: xs) !! 0)
         end).
  assert (∀ i, orFirst i ∈ x0 :: xs) as Hin.
  { intros i. unfold orFirst. destruct ((x0 :: xs) !! i) as [x|] eqn:Hi; simpl; [|by left].
    case_bool_decide; [by left|]. by eapply list_elem_of_lookup_2. }
  assert (∀ x, x ∈ x0 :: xs →
            hexPair (component (toNumber x)) = true) as Hpair.
  { intros x (q & -> & H0 & H1)%Hcomponents. by apply component_hexPair. }
  exists (component (toNumber x0)), (component (toNumber (orFirst 1))),
         (component (toNumber (orFirst 2))).
  split; [|split_and!; apply Hpair; [by left|apply Hin..]].
  cbn [lookup list_lookup default from_option id fmap list_fmap JS.join foldr].
  fold orFirst. by rewrite str_app_nil_r.
Qed.
End ColourFormat.

(** The theorem at magenta. *)
Lemma ncolourToHex_format_witness :
  ∃ r g b,
    Pdfminer.ncolourToHex Sample.parseFloat "[1,0,1]" = "#" +:+ r +:+ g +:+ b
    ∧ Colours.hexPair r = true ∧ Colours.hexPair g = true ∧ Colours.hexPair b = true.
Proof.
  apply (ncolourToHex_format Sample.parseFloat "[1,0,1]").
  intros x Hx. change (x ∈ ["1"; "0"; "1"]) in Hx.
  repeat (apply elem_of_cons in Hx as [->|Hx]); [ | | |by apply elem_of_nil in Hx].
  - exists (Q2Qc 1). split; [reflexivity|]. split; by vm_compute.
  - exists (Q2Qc 0). split; [reflexivity|]. split; by vm_compute.
  - exists (Q2Qc 1). split; [reflexivity|]. split; by vm_compute.
Defined.

(** ** Runs of the link detection *)

Section LinkDetectionRuns.
Import LinkDetection Unlinked.
Variable parseFloat toNumber : string → number.
Variable getPercentageOfInclusion : BoundingBox.t → BoundingBox.t → number.
Variable getCommandLocationOnSystem : string → option string.
Variable spawn : string → string → ProcessRun.
Variable parseXmlToObject : string → Promise jsval.
Variable stackDepth : nat.

#[local] Abbreviation exceeds := (LinkDetection.exceeds getPercentageOfInclusion).
#[local] Abbreviation matchAnnotation := (LinkDetection.matchAnnotation getPercentageOfInclusion).
#[local] Abbreviation processWord := (LinkDetection.processWord getPercentageOfInclusion).
#[local] Abbreviation annotate := (LinkDetection.annotate getPercentageOfInclusion).
#[local] Abbreviation extractLinksFromMetadata :=
  (LinkDetection.extractLinksFromMetadata parseFloat toNumber getCommandLocationOnSystem
     spawn parseXmlToObject stackDepth).
#[local] Abbreviation main :=
  (LinkDetection.main parseFloat toNumber getPercentageOfInclusion getCommandLocationOnSystem
     spawn parseXmlToObject stackDepth).

Lemma unlink_setProperty k v word :
  k = "link" ∨ k = "targetURL" → unlink (setProperty k v word) = unlink word.
Proof.
  intros [-> | ->]; unfold unlink, setProperty; simpl; f_equal.
  - by rewrite delete_insert_eq.
  - by rewrite delete_insert_ne, delete_insert_eq.
Qed.

Lemma unlink_matchAnnotation word l : unlink (matchAnnotation word l) = unlink word.
Proof.
  unfold LinkDetection.matchAnnotation. destruct (exceeds word l); [|done].
  destruct (buildLinkMD word l). rewrite !unlink_setProperty; auto.
Qed.

Lemma unlink_matchTextualLinks word : unlink (matchTextualLinks word) = unlink word.
Proof.
  unfold matchTextualLinks. repeat case_match; rewrite ?unlink_setProperty; auto.
Qed.

Lemma unlink_processWord links word : unlink (processWord links word) = unlink word.
Proof.
  unfold LinkDetection.processWord.
  assert (unlink (foldl matchAnnotation word links) = unlink word) as Hfold.
  { revert word. induction links as [|l links IH]; intros word; simpl; [done|].
    by rewrite IH, unlink_matchAnnotation. }
  case_match; by rewrite ?unlink_matchTextualLinks.
Qed.

Lemma mapWords_absorb (f g : Word → Word) :
  (∀ word, g (f word) = g word) → ∀ e, mapWords g (mapWords f e) = mapWords g e.
Proof.
  intros Hgf. fix IH 1. intros [w|i|children]; simpl; [by rewrite Hgf|done|].
  f_equal. induction children as [|e children IHc]; simpl; [done|].
  by rewrite IH, IHc.
Qed.

Lemma unlinkDocument_annotate mdLinks doc :
  unlinkDocument (annotate mdLinks doc) = unlinkDocument doc.
Proof.
  unfold unlinkDocument, LinkDetection.annotate. simpl. f_equal.
  rewrite <-list_fmap_compose. apply list_fmap_ext. intros _ page _. simpl. f_equal.
  rewrite <-list_fmap_compose. apply list_fmap_ext. intros _ e _. simpl.
  apply mapWords_absorb. intros word. apply unlink_processWord.
Qed.

(** X7. When the link detection completes, the document it hands back is
    the document it was given up to the properties [link] and [targetURL]
    of the words: the pages, their numbers and boxes, the elements, and
    the boxes, characters, fonts and other properties of the words are the
    same. *)
Theorem main_changes_links_only doc doc' :
  main doc = Resolved doc' →
  unlinkDocument doc' = unlinkDocument doc
  ∧ inputFile doc' = inputFile doc
  ∧ length (pages doc') = length (pages doc)
  ∧ ∀ i page page',
      pages doc !! i = Some page → pages doc' !! i = Some page' →
      pageNumber page' = pageNumber page ∧ page_box page' = page_box page
      ∧ length (elements page') = length (elements page).
Proof.
  unfold LinkDetection.main.
  destruct (extractLinksFromMetadata (inputFile doc)) as [mdLinks|e|]; [|done..].
  intros [= <-]. split; [apply unlinkDocument_annotate|]. split; [done|].
  unfold LinkDetection.annotate. simpl. split; [by rewrite length_fmap|].
  intros i page page' Hpage. rewrite list_lookup_fmap, Hpage. intros [= <-]. simpl.
  by rewrite length_fmap.
Qed.

(** The word that an annotation leaves when it exceeds the threshold. *)
#[local] Abbreviation linked word l :=
  (setProperty "targetURL" (buildLinkMD word l).2
     (setProperty "link" (JString (buildLinkMD word l).1) word)).

Lemma setProperty_again k v v' word :
  setProperty k v (setProperty k v' word) = setProperty k v word.
Proof. unfold setProperty. simpl. by rewrite insert_insert_eq. Qed.

Lemma setProperty_commute k k' v v' word :
  k ≠ k' →
  setProperty k v (setProperty k' v' word) = setProperty k' v' (setProperty k v word).
Proof. intros Hne. unfold setProperty. simpl. by rewrite insert_insert_ne. Qed.

Lemma linked_linked word l l' : linked (linked word l') l = linked word l.
Proof.
  assert (sameWord (linked word l') word) as Hsame by done.
  rewrite !(sameWord_buildLinkMD _ _ _ Hsame).
  rewrite (setProperty_commute "link" "targetURL") by done.
  by rewrite !setProperty_again.
Qed.

Lemma matchAnnotation_linked word l :
  exceeds word l = true → matchAnnotation word l = linked word l.
Proof.
  intros Hl. unfold LinkDetection.matchAnnotation. rewrite Hl.
  by destruct (buildLinkMD word l).
Qed.

(** What the loop over the annotations leaves: the word as it was, or the
    word with the link of one annotation that exceeds the threshold; the
    annotation is the same for two words of the same box and text. *)
Lemma foldl_matchAnnotation_cases links a b :
  sameWord a b →
  ((∀ l, l ∈ links → exceeds a l = false)
   ∧ foldl matchAnnotation a links = a ∧ foldl matchAnnotation b links = b)
  ∨ ∃ l, l ∈ links ∧ exceeds a l = true
         ∧ foldl matchAnnotation a links = linked a l
         ∧ foldl matchAnnotation b links = linked b l.
Proof.
  intros Hab.
  induction links as [|l links IH] using rev_ind.
  - left. split; [by intros l ?%elem_of_nil|done].
  - rewrite !foldl_app. cbn [foldl].
    pose proof (foldl_matchAnnotation_sameWord getPercentageOfInclusion links a) as Ha.
    pose proof (foldl_matchAnnotation_sameWord getPercentageOfInclusion links b) as Hb.
    assert (exceeds b l = exceeds a l) as Hbl by (symmetry; by apply sameWord_exceeds).
    destruct (exceeds a l) eqn:Hl.
    + right. exists l. split; [apply elem_of_app; right; by left|]. split; [done|].
      rewrite !matchAnnotation_linked
        by (by rewrite (sameWord_exceeds _ _ _ _ Ha) || by rewrite (sameWord_exceeds _ _ _ _ Hb)).
      destruct IH as [(_ & -> & ->)|(l' & _ & _ & -> & ->)]; [done|].
      by rewrite !linked_linked.
    + rewrite !matchAnnotation_skips
        by (by rewrite (sameWord_exceeds _ _ _ _ Ha) || by rewrite (sameWord_exceeds _ _ _ _ Hb)).
      destruct IH as [(Hnone & -> & ->)|(l' & Hin & Hl' & -> & ->)].
      * left. split; [|done]. intros l0 [?| ->%list_elem_of_singleton]%elem_of_app; auto.
      * right. exists l'. split; [apply elem_of_app; by left|done].
Qed.

Lemma hasLink_linked word l : hasLink (linked word l) = true.
Proof. unfold hasLink, setProperty. simpl. by rewrite lookup_insert_ne, lookup_insert_eq. Qed.

Lemma matchTextualLinks_cases word :
  (matchTextualLinks word = word
   ∧ RegExp.matches linkRegexp (wordToString word) = false
   ∧ RegExp.matches mailRegexp (wordToString word) = false)
  ∨ (hasLink (matchTextualLinks word) = true ∧ sameWord (matchTextualLinks word) word).
Proof.
  unfold matchTextualLinks.
  destruct (RegExp.matches linkRegexp (wordToString word)) eqn:Hurl;
    [|destruct (RegExp.matches mailRegexp (wordToString word)) eqn:Hmail].
  - right. split; [|done]. unfold hasLink, setProperty. simpl.
    by rewrite lookup_insert_ne, lookup_insert_eq.
  - right. split; [|done]. unfold hasLink, setProperty. simpl.
    by rewrite lookup_insert_ne, lookup_insert_eq.
  - by left.
Qed.

Lemma processWord_idempotent links word :
  processWord links (processWord links word) = processWord links word.
Proof.
  destruct (foldl_matchAnnotation_cases links word word) as [(Hw & Hfold & _)|(l & Hin & Hl & Hfold & _)];
    [done| |].
  - assert (∀ w, sameWord w word →
              processWord links w = if hasLink w then w else matchTextualLinks w) as Hskip.
    { intros w Hsame. unfold LinkDetection.processWord.
      rewrite foldl_matchAnnotation_skips; [by destruct (hasLink w)|].
      intros l Hin. rewrite (sameWord_exceeds _ _ _ _ Hsame). auto. }
    rewrite (Hskip word) by done.
    destruct (hasLink word) eqn:Hlink.
    + rewrite (Hskip word) by done. by rewrite Hlink.
    + destruct (matchTextualLinks_cases word) as [(Heq & Hurl & Hmail)|[Hlinked Hsame]].
      * rewrite Heq, (Hskip word) by done. by rewrite Hlink.
      * rewrite (Hskip _ Hsame). by rewrite Hlinked.
  - assert (sameWord word (linked word l)) as Hsame by done.
    destruct (foldl_matchAnnotation_cases links word (linked word l) Hsame)
      as [(Hnone & _)|(l' & _ & _ & Hfold' & Hfold2)].
    { by rewrite Hnone in Hl. }
    assert (processWord links word = linked word l) as ->.
    { unfold LinkDetection.processWord. by rewrite Hfold, hasLink_linked. }
    unfold LinkDetection.processWord. rewrite Hfold2, linked_linked, hasLink_linked.
    cbn [negb]. congruence.
Qed.

(** X8. Running the link detection on the document it has handed back, for
    the same file, changes nothing: the second run resolves with the same
    document. *)
Theorem main_idempotent doc doc' :
  main doc = Resolved doc' → main doc' = Resolved doc'.
Proof.
  unfold LinkDetection.main.
  destruct (extractLinksFromMetadata (inputFile doc)) as [mdLinks|e|] eqn:Hlinks; [|done..].
  intros [= <-]. cbn [LinkDetection.annotate inputFile]. rewrite Hlinks. f_equal.
  unfold LinkDetection.annotate. simpl. f_equal.
  rewrite <-list_fmap_compose. apply list_fmap_ext. intros _ page _. simpl. f_equal.
  rewrite <-list_fmap_compose. apply list_fmap_ext. intros _ e _. simpl.
  apply mapWords_absorb. intros word. apply processWord_idempotent.
Qed.
End LinkDetectionRuns.

(** The theorem at a document of one page, for a file of two pages. *)
Lemma main_changes_links_only_witness :
  ∃ doc',
    LinkDetection.main Sample.parseFloat Sample.parseFloat Sample.getPercentageOfInclusion
      Sample.dumppdfLocation Sample.dumppdf Sample.parseXmlToObject 100 Sample.twoPages
    = Resolved doc'
    ∧ Unlinked.unlinkDocument doc' = Unlinked.unlinkDocument Sample.twoPages.
Proof.
  assert (∃ doc',
    LinkDetection.main Sample.parseFloat Sample.parseFloat Sample.getPercentageOfInclusion
      Sample.dumppdfLocation Sample.dumppdf Sample.parseXmlToObject 100 Sample.twoPages
    = Resolved doc') as [doc' Hdoc'].
  { unfold LinkDetection.main.
    assert (LinkDetection.extractLinksFromMetadata Sample.parseFloat Sample.parseFloat
      Sample.dumppdfLocation Sample.dumppdf Sample.parseXmlToObject 100
      (inputFile Sample.twoPages) = Resolved [Sample.firstAnnotation]) as ->
      by (vm_compute; reflexivity).
    eauto. }
  exists doc'. split; [exact Hdoc'|].
  exact (proj1 (main_changes_links_only _ _ _ _ _ _ _ _ _ Hdoc')).
Defined.

(** The theorem at the same document. *)
Lemma main_idempotent_witness :
  ∃ doc',
    LinkDetection.main Sample.parseFloat Sample.parseFloat Sample.getPercentageOfInclusion
      Sample.dumppdfLocation Sample.dumppdf Sample.parseXmlToObject 100 Sample.twoPages
    = Resolved doc'
    ∧ LinkDetection.main Sample.parseFloat Sample.parseFloat Sample.getPercentageOfInclusion
        Sample.dumppdfLocation Sample.dumppdf Sample.parseXmlToObject 100 doc'
      = Resolved doc'.
Proof.
  assert (∃ doc',
    LinkDetection.main Sample.parseFloat Sample.parseFloat Sample.getPercentageOfInclusion
      Sample.dumppdfLocation Sample.dumppdf Sample.parseXmlToObject 100 Sample.twoPages
    = Resolved doc') as [doc' Hdoc'].
  { unfold LinkDetection.main.
    assert (LinkDetection.extractLinksFromMetadata Sample.parseFloat Sample.parseFloat
      Sample.dumppdfLocation Sample.dumppdf Sample.parseXmlToObject 100
      (inputFile Sample.twoPages) = Resolved [Sample.firstAnnotation]) as ->
      by (vm_compute; reflexivity).
    eauto. }
  exists doc'. split; [exact Hdoc'|].
  exact (main_idempotent _ _ _ _ _ _ _ _ _ Hdoc').
Defined.

(** ** The search through the references, the other way round *)

Section DeepSearchConverse.
Import LinkDetection.
Variable objects : list jsval.
Implicit Types (id : jsval) (ids found path : list jsval).

Lemma deepSearch_sound depth : ∀ ids found,
  deepSearchObjectsWithIds depth objects ids = Normal found → depthFirst objects ids found.
Proof.
  induction depth as [|depth IH]; [done|].
  induction ids as [|id ids IHids]; intros found.
  - rewrite deepSearch_nil. intros [= <-]. constructor.
  - rewrite deepSearch_cons.
    destruct (classify objects id) as [[obj|ids']|e] eqn:Hk; [| |done].
    + destruct (deepSearchObjectsWithIds (S depth) objects ids) as [rest|e]; [|done].
      intros [= <-]. constructor; [done|]. by apply IHids.
    + destruct (deepSearchObjectsWithIds depth objects ids') as [below|e] eqn:Hbelow; [|done].
      destruct (deepSearchObjectsWithIds (S depth) objects ids) as [rest|e]; [|done].
      intros [= <-]. econstructor; [done| |by apply IHids]. by apply IH.
Qed.

Lemma deepSearch_deeper depth : ∀ ids found,
  deepSearchObjectsWithIds depth objects ids = Normal found →
  deepSearchObjectsWithIds (S depth) objects ids = Normal found.
Proof.
  induction depth as [|depth IH]; [done|].
  induction ids as [|id ids IHids]; intros found.
  - by rewrite !deepSearch_nil.
  - rewrite (deepSearch_cons _ (S depth)), (deepSearch_cons _ depth).
    destruct (classify objects id) as [[obj|ids']|e] eqn:Hk; [| |done].
    + destruct (deepSearchObjectsWithIds (S depth) objects ids) as [rest|e]; [|done].
      intros [= <-]. by rewrite (IHids rest).
    + destruct (deepSearchObjectsWithIds depth objects ids') as [below|e] eqn:Hbelow; [|done].
      destruct (deepSearchObjectsWithIds (S depth) objects ids) as [rest|e]; [|done].
      intros [= <-]. by rewrite (IH _ _ Hbelow), (IHids rest).
Qed.

(** A depth-first reading exists only where every reference resolves and
    none leads back to itself. *)
Lemma depthFirst_tree ids found :
  depthFirst objects ids found →
  ∀ id, reachable objects ids id →
        (∃ k, classify objects id = Normal k) ∧ ¬ tc (refersTo objects) id id.
Proof.
  induction 1 as [|id ids obj found Hk Hdf IH|id ids ids' below found Hk Hdfb IHb Hdf IH];
    intros x (i & Hi & Hr).
  - by apply elem_of_nil in Hi.
  - apply elem_of_cons in Hi as [->|Hi]; [|apply IH; by exists i].
    apply rtc_inv in Hr as [<-|(y & (ids' & Hy & _) & _)]; [|congruence].
    split; [eauto|]. intros Hcycle.
    inversion Hcycle as [? ? [ids' [Hy _]]|? y ? [ids' [Hy _]] _]; congruence.
  - apply elem_of_cons in Hi as [->|Hi]; [|apply IH; by exists i].
    apply rtc_inv in Hr as [<-|(y & (ids'' & Hy & Hin) & Hr)].
    + split; [eauto|]. intros Hcycle.
      assert (∃ y, refersTo objects id y ∧ rtc (refersTo objects) y id) as (y & [ids'' [Hy Hin]] & Hr).
      { inversion Hcycle as [? ? Hstep|? y ? Hstep Hrest]; subst.
        - exists id. split; [done|constructor].
        - exists y. split; [done|]. by apply tc_rtc. }
      assert (ids'' = ids') as -> by congruence.
      destruct (IHb id) as [_ Hno]; [by exists y|]. by apply Hno.
    + assert (ids'' = ids') as -> by congruence.
      apply IHb. by exists y.
Qed.

(** X9. [deepSearchObjectsWithIds] returns a list only on a graph in which
    every reference that is met resolves and none leads back to itself;
    the list is then the depth-first reading of the graph, and a deeper
    stack gives the same list. Where a reference that is met leads back to
    itself, the search throws, however deep the stack. *)
Theorem deep_search_returns_on_trees_only ids :
  (∀ depth found,
     deepSearchObjectsWithIds depth objects ids = Normal found →
     depthFirst objects ids found
     ∧ resolves objects ids ∧ acyclic objects ids
     ∧ ∀ depth', depth ≤ depth' → deepSearchObjectsWithIds depth' objects ids = Normal found)
  ∧ ((∃ id, reachable objects ids id ∧ tc (refersTo objects) id id) →
     ∀ depth, ∃ e, deepSearchObjectsWithIds depth objects ids = Throw e).
Proof.
  assert (∀ depth found,
            deepSearchObjectsWithIds depth objects ids = Normal found →
            resolves objects ids ∧ acyclic objects ids) as Htree.
  { intros depth found Hfound%deepSearch_sound.
    split; intros id Hid; by apply (depthFirst_tree _ _ Hfound). }
  split.
  - intros depth found Hfound. split; [by eapply deepSearch_sound|].
    destruct (Htree _ _ Hfound) as [Hresolves Hacyclic]. split; [done|]. split; [done|].
    induction 1 as [|depth' _ IH]; [done|]. by apply deepSearch_deeper.
  - intros (id & Hid & Hcycle) depth.
    destruct (deepSearchObjectsWithIds depth objects ids) as [found|e] eqn:Hfound; [|eauto].
    destruct (Htree _ _ Hfound) as [_ Hacyclic]. by destruct (Hacyclic id Hid).
Qed.
End DeepSearchConverse.

(** The theorem at the graph of two lists and two dictionaries, and at two
    lists that refer to each other. *)
Lemma deep_search_returns_on_trees_only_witness :
  LinkDetection.deepSearchObjectsWithIds 5 Sample.graph Sample.graphIds
    = Normal [Sample.object "7" [] []; Sample.object "9" [] []; Sample.object "9" [] []]
  ∧ LinkDetection.acyclic Sample.graph Sample.graphIds
  ∧ LinkDetection.deepSearchObjectsWithIds 50 Sample.graph Sample.graphIds
    = Normal [Sample.object "7" [] []; Sample.object "9" [] []; Sample.object "9" [] []]
  ∧ tc (LinkDetection.refersTo Examples.loop) (JString "1") (JString "1")
  ∧ ∃ e, LinkDetection.deepSearchObjectsWithIds 50 Examples.loop [JString "1"] = Throw e.
Proof.
  assert (LinkDetection.deepSearchObjectsWithIds 5 Sample.graph Sample.graphIds
          = Normal [Sample.object "7" [] []; Sample.object "9" [] []; Sample.object "9" [] []])
    as Hfound by (vm_compute; reflexivity).
  destruct (proj1 (deep_search_returns_on_trees_only Sample.graph Sample.graphIds) 5 _ Hfound)
    as (_ & _ & Hacyclic & Hdeeper).
  assert (tc (LinkDetection.refersTo Examples.loop) (JString "1") (JString "1")) as Hcycle.
  { apply (tc_l _ _ (JString "2")); [|apply tc_once].
    - exists [JString "2"]. split; [vm_compute; reflexivity | by left].
    - exists [JString "1"]. split; [vm_compute; reflexivity | by left]. }
  split; [exact Hfound|]. split; [exact Hacyclic|]. split; [apply Hdeeper; lia|].
  split; [exact Hcycle|].
  apply (proj2 (deep_search_returns_on_trees_only Examples.loop [JString "1"])).
  exists (JString "1"). split; [|exact Hcycle].
  exists (JString "1"). split; [by left | constructor].
Defined.
